(** * FilaSimples: a G/G/c/K queue simulator driven by a bounded LCG stream

    Shallow embedding of [FilaSimples.py].

    - Python integers ([servers], [capacity], [state], [losses], the
      generator's [previous] and [random_count]) are [Z].
    - The program is embedded twice. In the first model simulated times
      are exact rationals [Q] (Python's [==], [<] and [<=] on numbers are
      [Qeq], [Qlt] and [Qle]); it carries the properties of the control
      flow, the counters and the scheduler, whose proofs use no property of
      the time arithmetic. In [Doubles] the times are binary64 values with
      Python's rounding, infinities and nan; it carries the properties of
      the time values themselves.
    - The module-level generator variables are an explicit [generator]
      record threaded through every call.
    - Exceptions are values of [exn]; a call that can raise returns a
      [result]. *)

From Stdlib Require Import String Ascii DecimalString.
From Stdlib Require Import ZArith QArith List Bool Lia Lqa Permutation.
From Stdlib Require PrimFloat SpecFloat FloatOps Uint63.
Import ListNotations.

Local Open Scope Z_scope.

(** ** Exceptions *)

Inductive exn : Set :=
| Exhaustion        (* raise Exception("Acabaram os numeros pseudoaleatorios!") *)
| IndexError        (* list index out of range / pop from empty list *)
| InvalidParameters (* named by the design text; no statement of the program raises it *).

Inductive result (A : Type) : Type :=
| Ok (x : A)
| Raise (e : exn).

Arguments Ok {A} x.
Arguments Raise {A} e.

(** ** Pseudo-random generator (LCG) *)

Definition a : Z := 1664525.
Definition c : Z := 1013904223.
Definition M : Z := 2 ^ 32.

(** The globals [previous] and [random_count]. *)
Record generator : Set := mkGen {
  previous : Z;
  random_count : Z
}.

(** [reset_random(seed, count)]: overwrites both globals. *)
Definition reset_random (seed count : Z) (_ : generator) : generator :=
  {| previous := seed; random_count := count |}.

(** [next_random()]: the outcome of the call and the globals after it. *)
Definition next_random (g : generator) : result Q * generator :=
  if random_count g <=? 0 then (Raise Exhaustion, g)
  else
    let random_count' := random_count g - 1 in
    let previous' := (a * previous g + c) mod M in
    (Ok (inject_Z previous' / inject_Z M)%Q,
     {| previous := previous'; random_count := random_count' |}).

(** [n] consecutive calls of [next_random], outcomes in call order. *)
Fixpoint draws (n : nat) (g : generator) : list (result Q) * generator :=
  match n with
  | O => ([], g)
  | S n' =>
      let (r, g') := next_random g in
      let (rs, g'') := draws n' g' in
      (r :: rs, g'')
  end.

(** The recurrence as the design text writes it, with literal constants. *)
Definition lcg_next (s : Z) : Z := (1664525 * s + 1013904223) mod 2 ^ 32.

Fixpoint lcg_variates (n : nat) (s : Z) : list Q :=
  match n with
  | O => []
  | S n' => let s' := lcg_next s in (inject_Z s' / inject_Z (2 ^ 32))%Q :: lcg_variates n' s'
  end.

(** ** Events and the scheduler *)

(** The strings ["arrival"] and ["departure"]. *)
Inductive event_kind : Set := Arrival | Departure.

Definition kind_name (k : event_kind) : string :=
  match k with
  | Arrival => "arrival"
  | Departure => "departure"
  end.

(** An event is the tuple [(time, type)]. *)
Definition event : Set := (Q * event_kind)%type.

Definition kind_ltb (k1 k2 : event_kind) : bool :=
  match k1, k2 with
  | Arrival, Departure => true
  | _, _ => false
  end.

(** Python's [<] on the tuples: the first components decide unless they
    are equal, then the strings decide. *)
Definition tuple_ltb (e1 e2 : event) : bool :=
  match (fst e1 ?= fst e2)%Q with
  | Lt => true
  | Gt => false
  | Eq => kind_ltb (snd e1) (snd e2)
  end.

(** [heapq] is modelled by its contract. The pending events are kept in
    insertion order: [heappush] appends, [heappop] takes out a smallest
    tuple (the earliest inserted one among tuples that compare equal, which
    Python cannot tell apart). *)
Definition heappush (h : list event) (e : event) : list event := h ++ [e].

Fixpoint heappop (h : list event) : option (event * list event) :=
  match h with
  | [] => None
  | e :: h' =>
      match heappop h' with
      | None => Some (e, [])
      | Some (m, rest) =>
          if tuple_ltb m e then Some (m, e :: rest) else Some (e, h')
      end
  end.

(** ** Python list indexing *)

(** Position denoted by index [i] in a list of length [len]: negative
    indices count from the end, anything else out of range raises. *)
Definition py_index (len : nat) (i : Z) : option nat :=
  if (0 <=? i) && (i <? Z.of_nat len) then Some (Z.to_nat i)
  else if (i <? 0) && (- Z.of_nat len <=? i) then Some (Z.to_nat (Z.of_nat len + i))
  else None.

Fixpoint alter_nth {A : Type} (f : A -> A) (n : nat) (l : list A) : list A :=
  match l, n with
  | [], _ => []
  | x :: l', O => f x :: l'
  | x :: l', S n' => x :: alter_nth f n' l'
  end.

(** [l[i] += delta] *)
Definition iadd_item (l : list Q) (i : Z) (delta : Q) : result (list Q) :=
  match py_index (length l) i with
  | None => Raise IndexError
  | Some k => Ok (alter_nth (fun t => t + delta)%Q k l)
  end.

(** Python's [sum]: a left fold from [0]. *)
Definition py_sum (l : list Q) : Q := fold_left Qplus l 0%Q.

(** ** Simulation *)

Record params : Set := mkParams {
  servers : Z;
  capacity : Z;
  first_arrival : Q;
  min_arrival : Q;
  max_arrival : Q;
  min_service : Q;
  max_service : Q;
  num_randoms : Z;
  seed : Z
}.

(** The locals of [simulate_queue] together with the generator globals. *)
Record sim_state : Set := mkState {
  current_time : Q;
  state : Z;
  losses : Z;
  time_in_state : list Q;
  event_list : list event;
  gen : generator
}.

Definition set_gen (s : sim_state) (g : generator) : sim_state :=
  mkState (current_time s) (state s) (losses s) (time_in_state s) (event_list s) g.

Definition set_state (s : sim_state) (n : Z) : sim_state :=
  mkState (current_time s) n (losses s) (time_in_state s) (event_list s) (gen s).

Definition set_losses (s : sim_state) (n : Z) : sim_state :=
  mkState (current_time s) (state s) n (time_in_state s) (event_list s) (gen s).

Definition set_event_list (s : sim_state) (h : list event) : sim_state :=
  mkState (current_time s) (state s) (losses s) (time_in_state s) h (gen s).

(** How one iteration of the [while] loop ends. *)
Inductive outcome : Set :=
| Continue (s : sim_state)   (* falls through to the loop test *)
| Break (s : sim_state)      (* [break] *)
| Raised (e : exn).          (* an uncaught exception *)

(** [try: x = next_random() / except Exception: break], followed by [k]. *)
Definition try_draw (s : sim_state) (k : Q -> sim_state -> outcome) : outcome :=
  match next_random (gen s) with
  | (Ok x, g') => k x (set_gen s g')
  | (Raise _, g') => Break (set_gen s g')
  end.

(** Lines 82-84 and 109-111. *)
Definition schedule_departure (p : params) (x : Q) (s : sim_state) : sim_state :=
  let service_time := (min_service p + (max_service p - min_service p) * x)%Q in
  let departure_time := (current_time s + service_time)%Q in
  set_event_list s (heappush (event_list s) (departure_time, Departure)).

(** Lines 94-96. *)
Definition schedule_arrival (p : params) (x : Q) (s : sim_state) : sim_state :=
  let interarrival := (min_arrival p + (max_arrival p - min_arrival p) * x)%Q in
  let next_arrival_time := (current_time s + interarrival)%Q in
  set_event_list s (heappush (event_list s) (next_arrival_time, Arrival)).

(** Lines 89-96: schedule the next arrival. *)
Definition next_arrival (p : params) (s : sim_state) : outcome :=
  try_draw s (fun x s => Continue (schedule_arrival p x s)).

(** Lines 67-111: the loop body after [heappop] returned [(event_time,
    event_type)] and left [rest] in [event_list]. *)
Definition handle_event (p : params) (s : sim_state) (ev : event) (rest : list event)
  : outcome :=
  let (event_time, event_type) := ev in
  let delta := (event_time - current_time s)%Q in
  match iadd_item (time_in_state s) (state s) delta with
  | Raise e => Raised e
  | Ok tis =>
      let s := mkState event_time (state s) (losses s) tis rest (gen s) in
      match event_type with
      | Arrival =>
          if state s <? capacity p then
            let s := set_state s (state s + 1) in
            if state s <=? servers p then
              try_draw s (fun x s => next_arrival p (schedule_departure p x s))
            else next_arrival p s
          else
            let s := set_losses s (losses s + 1) in
            next_arrival p s
      | Departure =>
          let s := set_state s (state s - 1) in
          if state s >=? servers p then
            try_draw s (fun x s => Continue (schedule_departure p x s))
          else Continue s
      end
  end.

(** [while event_list and random_count > 0] *)
Definition loop_guard (s : sim_state) : bool :=
  match event_list s with
  | [] => false
  | _ :: _ => 0 <? random_count (gen s)
  end.

(** One processed event: the state when it was popped, the event, and the
    state when its iteration ended (by falling through or by [break]). *)
Record step_record : Set := mkStep {
  pre : sim_state;
  ev : event;
  post : sim_state
}.

Inductive loop_end : Set :=
| Halted (s : sim_state)
| Aborted (e : exn)
| OutOfFuel (s : sim_state).

(** The [while] loop, unrolled at most [fuel] times, with the log of the
    events it processed. *)
Fixpoint run_loop (fuel : nat) (p : params) (s : sim_state)
  : list step_record * loop_end :=
  if loop_guard s then
    match fuel with
    | O => ([], OutOfFuel s)
    | S fuel' =>
        match heappop (event_list s) with
        | None => ([], Aborted IndexError)
        | Some (e, rest) =>
            match handle_event p s e rest with
            | Continue s' =>
                let (log, fin) := run_loop fuel' p s' in
                (mkStep s e s' :: log, fin)
            | Break s' => ([mkStep s e s'], Halted s')
            | Raised x => ([], Aborted x)
            end
        end
    end
  else ([], Halted s).

(** Lines 46-60. *)
Definition initial_state (p : params) (g0 : generator) : sim_state :=
  let g := reset_random (seed p) (num_randoms p) g0 in
  let time_in_state := repeat 0%Q (Z.to_nat (capacity p + 1)) in
  let event_list := heappush [] (first_arrival p, Arrival) in
  mkState 0%Q 0 0 time_in_state event_list g.

(** ** Result aggregation *)

(** Python's [x > 0] on numbers. *)
Definition Qpositive (x : Q) : bool :=
  match (0 ?= x)%Q with
  | Lt => true
  | _ => false
  end.

(** Lines 116-117. *)
Definition compute_probabilities (time_in_state : list Q) (simulation_time : Q) : list Q :=
  map (fun t => if Qpositive simulation_time then (t / simulation_time * 100)%Q else 0%Q)
      time_in_state.

(** Lines 120-121. *)
Definition compute_avg_population (time_in_state : list Q) (simulation_time : Q) : Q :=
  if Qpositive simulation_time then
    py_sum (map (fun i => (inject_Z (Z.of_nat i) * (nth i time_in_state 0 / simulation_time))%Q)
                (seq 0 (length time_in_state)))
  else 0%Q.

(** The returned dictionary. *)
Record sim_result : Set := mkResult {
  simulation_time : Q;
  res_time_in_state : list Q;
  probabilities : list Q;
  res_losses : Z;
  avg_population : Q;
  res_servers : Z;
  res_capacity : Z;
  res_min_arrival : Q;
  res_max_arrival : Q;
  res_min_service : Q;
  res_max_service : Q
}.

(** Lines 113-135. *)
Definition aggregate (p : params) (s : sim_state) : sim_result :=
  let simulation_time := current_time s in
  {| simulation_time := simulation_time;
     res_time_in_state := time_in_state s;
     probabilities := compute_probabilities (time_in_state s) simulation_time;
     res_losses := losses s;
     avg_population := compute_avg_population (time_in_state s) simulation_time;
     res_servers := servers p;
     res_capacity := capacity p;
     res_min_arrival := min_arrival p;
     res_max_arrival := max_arrival p;
     res_min_service := min_service p;
     res_max_service := max_service p |}.

(** [simulate_queue] with the loop unrolled at most [fuel] times; [None]
    only when the fuel runs out. *)
Definition simulate_queue_fuel (fuel : nat) (p : params) (g0 : generator)
  : option (result sim_result) :=
  match snd (run_loop fuel p (initial_state p g0)) with
  | Halted s => Some (Ok (aggregate p s))
  | Aborted e => Some (Raise e)
  | OutOfFuel _ => None
  end.

(** Every draw lowers [random_count] and every processed departure was
    scheduled by a draw, so [2 * num_randoms] iterations are enough
    ([simulate_queue_total] below). *)
Definition loop_bound (p : params) : nat := Z.to_nat (2 * num_randoms p).

Definition simulate_queue (p : params) (g0 : generator) : option (result sim_result) :=
  simulate_queue_fuel (loop_bound p) p g0.

(** The events processed by a call of [simulate_queue]. *)
Definition processed (p : params) (g0 : generator) : list step_record :=
  fst (run_loop (loop_bound p) p (initial_state p g0)).

(** The parameter check the design text asks for (the program has none). *)
Definition valid_parameters (p : params) : bool :=
  (0 <=? capacity p) && (0 <? servers p)
  && Qle_bool (min_arrival p) (max_arrival p)
  && Qle_bool (min_service p) (max_service p)
  && (0 <? num_randoms p).

(** The scheduler as the design text words it: smallest [time] first, the
    earliest inserted event first among equal times. *)
Fixpoint heappop_fifo (h : list event) : option (event * list event) :=
  match h with
  | [] => None
  | e :: h' =>
      match heappop_fifo h' with
      | None => Some (e, [])
      | Some (m, rest) =>
          match (fst m ?= fst e)%Q with
          | Lt => Some (m, e :: rest)
          | _ => Some (e, h')
          end
      end
  end.

(** ** Quantities used to state the properties *)

Definition is_departure (e : event) : bool :=
  match snd e with
  | Departure => true
  | Arrival => false
  end.

(** Number of departures waiting in the scheduler. *)
Definition pending_departures (h : list event) : Z :=
  Z.of_nat (length (filter is_departure h)).

(** Two units per draw still allowed, one per departure still pending:
    every iteration of the loop lowers it. *)
Definition potential (s : sim_state) : Z :=
  2 * random_count (gen s) + pending_departures (event_list s).

(** The loop invariant behind the occupancy bounds: as many departures are
    pending as customers are in service. *)
Definition occupancy_inv (p : params) (s : sim_state) : Prop :=
  0 <= state s <= capacity p
  /\ length (time_in_state s) = Z.to_nat (capacity p + 1)
  /\ pending_departures (event_list s) = Z.max 0 (Z.min (state s) (servers p)).

(** What the log records for each entry: the loop test passed, [ev] is the
    event [heappop] returned, and the body ended in [post] without raising. *)
Definition processed_step (p : params) (r : step_record) : Prop :=
  loop_guard (pre r) = true
  /\ exists rest,
       heappop (event_list (pre r)) = Some (ev r, rest)
       /\ (handle_event p (pre r) (ev r) rest = Continue (post r)
           \/ handle_event p (pre r) (ev r) rest = Break (post r)).



(** The aggregator as the design text words it: the quotient formulas,
    and zero when the clock equals zero. *)
Definition spec_probabilities (time_in_state : list Q) (clock : Q) : list Q :=
  map (fun t => if Qeq_bool clock 0 then 0%Q else (t / clock * 100)%Q) time_in_state.

Definition spec_avg_population (time_in_state : list Q) (clock : Q) : Q :=
  if Qeq_bool clock 0 then 0%Q
  else py_sum (map (fun i => (inject_Z (Z.of_nat i) * nth i time_in_state 0 / clock)%Q)
                   (seq 0 (length time_in_state))).

(** The loop invariant behind the draw count: the generator is [k] draws
    into the stream of this run, for some [k] within the budget. *)
Definition stream_inv (p : params) (s : sim_state) : Prop :=
  exists k : nat,
    Z.of_nat k <= num_randoms p
    /\ gen s = mkGen (Nat.iter k lcg_next (seed p)) (num_randoms p - Z.of_nat k).

Definition is_arrival (e : event) : bool :=
  match snd e with
  | Arrival => true
  | Departure => false
  end.

(** Number of arrivals waiting in the scheduler. *)
Definition pending_arrivals (h : list event) : Z :=
  Z.of_nat (length (filter is_arrival h)).

(** The loop invariant behind the stopping rule: the next arrival is always
    pending, unless the generator has run dry. *)
Definition arrival_inv (s : sim_state) : Prop :=
  pending_arrivals (event_list s) = 1 \/ random_count (gen s) <= 0.

(** A logged arrival that found the system full. *)
Definition rejected (p : params) (r : step_record) : bool :=
  is_arrival (ev r) && (state (pre r) =? capacity p).

(** A logged arrival that was let in. *)
Definition admitted (p : params) (r : step_record) : bool :=
  is_arrival (ev r) && (state (pre r) <? capacity p).

Definition departed (r : step_record) : bool := is_departure (ev r).

Definition count_steps (f : step_record -> bool) (log : list step_record) : Z :=
  Z.of_nat (length (filter f log)).

(** ** The report and the script *)

(** [str(n)] for an integer. *)
Definition str_int (n : Z) : string := NilZero.string_of_int (Z.to_int n).

(** [s * n] for a string. *)
Fixpoint repeat_string (s : string) (n : nat) : string :=
  match n with
  | O => EmptyString
  | S n' => (s ++ repeat_string s n')%string
  end.

(** [format(n, "<width>d")]: right-justified with spaces. *)
Definition format_d (width : nat) (n : Z) : string :=
  let digits := str_int n in
  (repeat_string " " (width - String.length digits) ++ digits)%string.

(** How Python prints a float is not modelled: [format(x, "<width>.<prec>f")]
    (no width given is width 0) and [str(x)] are parameters of the report. *)
Record float_format : Type := mkFloatFormat {
  format_f : nat -> nat -> Q -> string;
  str_float : Q -> string
}.

(** [enumerate(l)] *)
Definition enumerate {A : Type} (l : list A) : list (nat * A) :=
  combine (seq 0 (length l)) l.

(** Line 149, the line printed for one state. *)
Definition state_line (fmt : float_format) (i : nat) (t prob : Q) : string :=
  ("Estado " ++ format_d 2 (Z.of_nat i) ++ ": " ++ format_f fmt 11 4 t
   ++ " min  |  Probalidade: " ++ format_f fmt 6 2 prob ++ "%")%string.

(** [print_report]: the text of each [print] call, in order. *)
Definition print_report (fmt : float_format) (result : sim_result) (queue_label : string)
  : list string :=
  [ repeat_string "=" 60;
    ("Relatorio " ++ queue_label)%string;
    repeat_string "=" 60;
    ("Fila:   G/G/" ++ str_int (res_servers result) ++ "/"
     ++ str_int (res_capacity result))%string;
    ("Chegada: " ++ str_float fmt (res_min_arrival result) ++ " ... "
     ++ str_float fmt (res_max_arrival result))%string;
    ("Servico: " ++ str_float fmt (res_min_service result) ++ " ... "
     ++ str_float fmt (res_max_service result))%string;
    repeat_string "-" 60 ]
  ++ map (fun '(i, (t, prob)) => state_line fmt i t prob)
         (enumerate (combine (res_time_in_state result) (probabilities result)))
  ++ [ ("Quantidade de perdas:" ++ " " ++ str_int (res_losses result))%string;
       repeat_string "-" 60;
       ("Tempo global de simulação: " ++ format_f fmt 0 4 (simulation_time result)
        ++ " min")%string;
       ("População média: " ++ format_f fmt 0 4 (avg_population result))%string;
       repeat_string "=" 60;
       String "010" EmptyString ].







(** ** The engine on IEEE doubles

    The same program with its times as Python has them: binary64 values
    with round-to-nearest arithmetic, infinities and nan. The integer part
    (generator state, occupancy, losses) is shared with the model above;
    the numeric arguments are doubles, as in the calls of the script.
    [heapq] is modelled by the same contract; the order of two tuples is
    Python's, so a nan time is neither equal to nor smaller than anything. *)

Module Doubles.

Import PrimFloat.

(** [float(n)] for [0 <= n < 2^63]. *)
Definition float_of_int (n : Z) : float := of_uint63 (Uint63.of_Z n).

(** [next_random()]. The quotient [previous / M] of two integers below
    [2^53] is the correctly rounded quotient of their doubles. *)
Definition next_random (g : generator) : result float * generator :=
  if random_count g <=? 0 then (Raise Exhaustion, g)
  else
    let random_count' := random_count g - 1 in
    let previous' := (a * previous g + c) mod M in
    (Ok (float_of_int previous' / float_of_int M)%float,
     {| previous := previous'; random_count := random_count' |}).

Definition event : Set := (float * event_kind)%type.

(** Python's [<] on the tuples: the first components decide unless they
    are [==], then the strings decide. *)
Definition tuple_ltb (e1 e2 : event) : bool :=
  if (fst e1 =? fst e2)%float then kind_ltb (snd e1) (snd e2)
  else (fst e1 <? fst e2)%float.

Definition heappush (h : list event) (e : event) : list event := h ++ [e].

Fixpoint heappop (h : list event) : option (event * list event) :=
  match h with
  | [] => None
  | e :: h' =>
      match heappop h' with
      | None => Some (e, [])
      | Some (m, rest) =>
          if tuple_ltb m e then Some (m, e :: rest) else Some (e, h')
      end
  end.

(** [l[i] += delta] *)
Definition iadd_item (l : list float) (i : Z) (delta : float) : result (list float) :=
  match py_index (length l) i with
  | None => Raise IndexError
  | Some k => Ok (alter_nth (fun t => t + delta)%float k l)
  end.

(** Python's [sum]: a left fold from the integer [0], which the first
    addition turns into a double. *)
Definition py_sum (l : list float) : float := fold_left add l 0%float.

Record params : Set := mkParams {
  servers : Z;
  capacity : Z;
  first_arrival : float;
  min_arrival : float;
  max_arrival : float;
  min_service : float;
  max_service : float;
  num_randoms : Z;
  seed : Z
}.

Record sim_state : Set := mkState {
  current_time : float;
  state : Z;
  losses : Z;
  time_in_state : list float;
  event_list : list event;
  gen : generator
}.

Definition set_gen (s : sim_state) (g : generator) : sim_state :=
  mkState (current_time s) (state s) (losses s) (time_in_state s) (event_list s) g.

Definition set_state (s : sim_state) (n : Z) : sim_state :=
  mkState (current_time s) n (losses s) (time_in_state s) (event_list s) (gen s).

Definition set_losses (s : sim_state) (n : Z) : sim_state :=
  mkState (current_time s) (state s) n (time_in_state s) (event_list s) (gen s).

Definition set_event_list (s : sim_state) (h : list event) : sim_state :=
  mkState (current_time s) (state s) (losses s) (time_in_state s) h (gen s).

Inductive outcome : Set :=
| Continue (s : sim_state)
| Break (s : sim_state)
| Raised (e : exn).

Definition try_draw (s : sim_state) (k : float -> sim_state -> outcome) : outcome :=
  match next_random (gen s) with
  | (Ok x, g') => k x (set_gen s g')
  | (Raise _, g') => Break (set_gen s g')
  end.

(** Lines 82-84 and 109-111. *)
Definition schedule_departure (p : params) (x : float) (s : sim_state) : sim_state :=
  let service_time := (min_service p + (max_service p - min_service p) * x)%float in
  let departure_time := (current_time s + service_time)%float in
  set_event_list s (heappush (event_list s) (departure_time, Departure)).

(** Lines 94-96. *)
Definition schedule_arrival (p : params) (x : float) (s : sim_state) : sim_state :=
  let interarrival := (min_arrival p + (max_arrival p - min_arrival p) * x)%float in
  let next_arrival_time := (current_time s + interarrival)%float in
  set_event_list s (heappush (event_list s) (next_arrival_time, Arrival)).

Definition next_arrival (p : params) (s : sim_state) : outcome :=
  try_draw s (fun x s => Continue (schedule_arrival p x s)).

(** Lines 67-111. *)
Definition handle_event (p : params) (s : sim_state) (ev : event) (rest : list event)
  : outcome :=
  let (event_time, event_type) := ev in
  let delta := (event_time - current_time s)%float in
  match iadd_item (time_in_state s) (state s) delta with
  | Raise e => Raised e
  | Ok tis =>
      let s := mkState event_time (state s) (losses s) tis rest (gen s) in
      match event_type with
      | Arrival =>
          if state s <? capacity p then
            let s := set_state s (state s + 1) in
            if state s <=? servers p then
              try_draw s (fun x s => next_arrival p (schedule_departure p x s))
            else next_arrival p s
          else
            let s := set_losses s (losses s + 1) in
            next_arrival p s
      | Departure =>
          let s := set_state s (state s - 1) in
          if state s >=? servers p then
            try_draw s (fun x s => Continue (schedule_departure p x s))
          else Continue s
      end
  end.

Definition loop_guard (s : sim_state) : bool :=
  match event_list s with
  | [] => false
  | _ :: _ => 0 <? random_count (gen s)
  end.

Record step_record : Set := mkStep {
  pre : sim_state;
  ev : event;
  post : sim_state
}.

Inductive loop_end : Set :=
| Halted (s : sim_state)
| Aborted (e : exn)
| OutOfFuel (s : sim_state).

Fixpoint run_loop (fuel : nat) (p : params) (s : sim_state)
  : list step_record * loop_end :=
  if loop_guard s then
    match fuel with
    | O => ([], OutOfFuel s)
    | S fuel' =>
        match heappop (event_list s) with
        | None => ([], Aborted IndexError)
        | Some (e, rest) =>
            match handle_event p s e rest with
            | Continue s' =>
                let (log, fin) := run_loop fuel' p s' in
                (mkStep s e s' :: log, fin)
            | Break s' => ([mkStep s e s'], Halted s')
            | Raised x => ([], Aborted x)
            end
        end
    end
  else ([], Halted s).

(** Lines 46-60. *)
Definition initial_state (p : params) (g0 : generator) : sim_state :=
  let g := reset_random (seed p) (num_randoms p) g0 in
  let time_in_state := repeat 0%float (Z.to_nat (capacity p + 1)) in
  let event_list := heappush [] (first_arrival p, Arrival) in
  mkState 0%float 0 0 time_in_state event_list g.

(** Lines 116-117; the integers [100] and [0] stand as doubles. *)
Definition compute_probabilities (time_in_state : list float) (simulation_time : float)
  : list float :=
  map (fun t => if (0 <? simulation_time)%float
                then (t / simulation_time * float_of_int 100)%float
                else 0%float)
      time_in_state.

(** Lines 120-121. *)
Definition compute_avg_population (time_in_state : list float) (simulation_time : float)
  : float :=
  if (0 <? simulation_time)%float then
    py_sum (map (fun i => (float_of_int (Z.of_nat i)
                           * (nth i time_in_state 0 / simulation_time))%float)
                (seq 0 (length time_in_state)))
  else 0%float.

Record sim_result : Set := mkResult {
  simulation_time : float;
  res_time_in_state : list float;
  probabilities : list float;
  res_losses : Z;
  avg_population : float;
  res_servers : Z;
  res_capacity : Z;
  res_min_arrival : float;
  res_max_arrival : float;
  res_min_service : float;
  res_max_service : float
}.

(** Lines 113-135. *)
Definition aggregate (p : params) (s : sim_state) : sim_result :=
  let simulation_time := current_time s in
  {| simulation_time := simulation_time;
     res_time_in_state := time_in_state s;
     probabilities := compute_probabilities (time_in_state s) simulation_time;
     res_losses := losses s;
     avg_population := compute_avg_population (time_in_state s) simulation_time;
     res_servers := servers p;
     res_capacity := capacity p;
     res_min_arrival := min_arrival p;
     res_max_arrival := max_arrival p;
     res_min_service := min_service p;
     res_max_service := max_service p |}.

Definition simulate_queue_fuel (fuel : nat) (p : params) (g0 : generator)
  : option (result sim_result) :=
  match snd (run_loop fuel p (initial_state p g0)) with
  | Halted s => Some (Ok (aggregate p s))
  | Aborted e => Some (Raise e)
  | OutOfFuel _ => None
  end.

(** As above, [2 * num_randoms] iterations are enough
    ([doubles_run_within_bound] below). *)
Definition loop_bound (p : params) : nat := Z.to_nat (2 * num_randoms p).

Definition simulate_queue (p : params) (g0 : generator) : option (result sim_result) :=
  simulate_queue_fuel (loop_bound p) p g0.

Definition processed (p : params) (g0 : generator) : list step_record :=
  fst (run_loop (loop_bound p) p (initial_state p g0)).

Definition is_departure (e : event) : bool :=
  match snd e with
  | Departure => true
  | Arrival => false
  end.

Definition pending_departures (h : list event) : Z :=
  Z.of_nat (length (filter is_departure h)).

Definition potential (s : sim_state) : Z :=
  2 * random_count (gen s) + pending_departures (event_list s).



End Doubles.

(** ** Runs on doubles that compute exactly *)













(** * Properties *)

(** ** The generator *)

Lemma lcg_next_range (s : Z) : 0 <= lcg_next s < 2 ^ 32.
Proof. unfold lcg_next. apply Z.mod_pos_bound. reflexivity. Qed.

Lemma variate_range (s : Z) :
  0 <= s < 2 ^ 32 -> (0 <= inject_Z s / inject_Z (2 ^ 32) < 1)%Q.
Proof.
  intros Hs. unfold Qdiv, Qle, Qlt, Qmult, Qinv, inject_Z. simpl. lia.
Qed.

Lemma next_random_success (g : generator) :
  0 < random_count g ->
  next_random g =
    (Ok (inject_Z (lcg_next (previous g)) / inject_Z (2 ^ 32))%Q,
     mkGen (lcg_next (previous g)) (random_count g - 1)).
Proof.
  intros Hpos. unfold next_random.
  destruct (random_count g <=? 0) eqn:E; [apply Z.leb_le in E; lia | reflexivity].
Qed.

Lemma next_random_failure (g : generator) :
  random_count g <= 0 -> next_random g = (Raise Exhaustion, g).
Proof.
  intros Hle. unfold next_random.
  destruct (random_count g <=? 0) eqn:E; [reflexivity | apply Z.leb_gt in E; lia].
Qed.

(** What a draw does to the budget, whatever its outcome. *)
Lemma next_random_cases (g : generator) :
  (0 < random_count g /\ exists x,
      next_random g = (Ok x, mkGen (lcg_next (previous g)) (random_count g - 1))
      /\ (0 <= x < 1)%Q)
  \/ (random_count g <= 0 /\ next_random g = (Raise Exhaustion, g)).
Proof.
  destruct (Z_lt_le_dec 0 (random_count g)) as [Hpos | Hle].
  - left. split; [assumption |]. eexists. split.
    + apply next_random_success; assumption.
    + apply variate_range, lcg_next_range.
  - right. split; [assumption | apply next_random_failure; assumption].
Qed.

Lemma draws_within_budget (n : nat) : forall g : generator,
  Z.of_nat n <= random_count g ->
  draws n g =
    (map Ok (lcg_variates n (previous g)),
     mkGen (Nat.iter n lcg_next (previous g)) (random_count g - Z.of_nat n)).
Proof.
  induction n as [| n IH]; intros g Hn.
  - simpl. destruct g as [pv rc]. simpl. f_equal. f_equal. lia.
  - cbn [draws]. rewrite next_random_success by lia.
    rewrite IH by (simpl; lia). cbn [previous random_count lcg_variates map].
    f_equal. f_equal.
    + rewrite <- Nat.iter_succ_r. reflexivity.
    + lia.
Qed.

Lemma draws_app (n m : nat) : forall g : generator,
  draws (n + m) g =
    (fst (draws n g) ++ fst (draws m (snd (draws n g))),
     snd (draws m (snd (draws n g)))).
Proof.
  induction n as [| n IH]; intros g.
  - simpl. destruct (draws m g); reflexivity.
  - cbn [Nat.add draws]. destruct (next_random g) as [r g1].
    rewrite IH. destruct (draws n g1) as [rs g2]. cbn [fst snd].
    destruct (draws m g2); reflexivity.
Qed.

Lemma lcg_variates_range (n : nat) : forall s : Z,
  Forall (fun x => 0 <= x < 1)%Q (lcg_variates n s).
Proof.
  induction n as [| n IH]; intros s; simpl; constructor.
  - apply variate_range, lcg_next_range.
  - apply IH.
Qed.

Lemma lcg_variates_length (n : nat) (s : Z) : length (lcg_variates n s) = n.
Proof. revert s. induction n as [| n IH]; intros s; simpl; [| rewrite IH]; reflexivity. Qed.

(** C3. After [reset_random seed budget] with a positive budget, the first
    [budget] calls of [next_random] all succeed, the call after them raises
    Exhaustion, the values returned are [s1/2^32, s2/2^32, ...] for the
    recurrence [s' = (1664525*s + 1013904223) mod 2^32] started at the seed,
    each lies in [0,1), and the whole outcome is a function of the seed and
    the budget alone (the globals before the reset play no part). *)
Theorem reset_then_budget_draws (seed budget : Z) (g0 : generator) :
  0 < budget ->
  let n := Z.to_nat budget in
  fst (draws (n + 1) (reset_random seed budget g0))
    = map Ok (lcg_variates n seed) ++ [Raise Exhaustion]
  /\ length (lcg_variates n seed) = n
  /\ Forall (fun x => 0 <= x < 1)%Q (lcg_variates n seed)
  /\ snd (draws n (reset_random seed budget g0)) = mkGen (Nat.iter n lcg_next seed) 0.
Proof.
  intros Hpos n.
  assert (Hd : draws n (reset_random seed budget g0)
               = (map Ok (lcg_variates n seed), mkGen (Nat.iter n lcg_next seed) 0)).
  { rewrite draws_within_budget by (simpl; subst n; lia).
    simpl. f_equal. f_equal. subst n. lia. }
  repeat split.
  - rewrite draws_app, Hd. cbn [fst snd draws].
    rewrite next_random_failure by (simpl; lia). reflexivity.
  - apply lcg_variates_length.
  - apply lcg_variates_range.
  - rewrite Hd. reflexivity.
Qed.

Lemma reset_then_budget_draws_witness :
  fst (draws (3 + 1) (reset_random 12345 3 (mkGen 7 9)))
    = map Ok (lcg_variates 3 12345) ++ [Raise Exhaustion].
Proof.
  exact (proj1 (reset_then_budget_draws 12345 3 (mkGen 7 9) ltac:(lia))).
Defined.

(** C8. A call of [next_random] made when [random_count <= 0] raises
    Exhaustion and leaves both [previous] and [random_count] as they were. *)
Theorem next_random_exhausted_keeps_state (g : generator) :
  random_count g <= 0 ->
  fst (next_random g) = Raise Exhaustion
  /\ previous (snd (next_random g)) = previous g
  /\ random_count (snd (next_random g)) = random_count g.
Proof.
  intros Hle. rewrite next_random_failure by assumption. repeat split.
Qed.

Lemma next_random_exhausted_keeps_state_witness :
  fst (next_random (mkGen 42 0)) = Raise Exhaustion
  /\ previous (snd (next_random (mkGen 42 0))) = 42
  /\ random_count (snd (next_random (mkGen 42 0))) = 0.
Proof.
  exact (next_random_exhausted_keeps_state (mkGen 42 0) ltac:(simpl; lia)).
Defined.

(** ** The scheduler *)

(** The order on kinds is the order of the strings they stand for. *)
Lemma kind_ltb_names (k1 k2 : event_kind) :
  kind_ltb k1 k2 = String.ltb (kind_name k1) (kind_name k2).
Proof. destruct k1, k2; reflexivity. Qed.

Lemma tuple_ltb_false (e1 e2 : event) :
  tuple_ltb e1 e2 = false <->
  (fst e2 < fst e1)%Q \/ ((fst e1 == fst e2)%Q /\ kind_ltb (snd e1) (snd e2) = false).
Proof.
  unfold tuple_ltb. destruct (Qcompare_spec (fst e1) (fst e2)) as [E | L | G].
  - split; [intros H; right; split; assumption |].
    intros [H | [_ H]]; [rewrite E in H; exfalso; apply (Qlt_irrefl _ H) | assumption].
  - split; [discriminate |].
    intros [H | [H _]]; [lra | rewrite H in L; exfalso; apply (Qlt_irrefl _ L)].
  - split; [intros _; left; assumption | reflexivity].
Qed.

Lemma kind_ltb_false_trans (k1 k2 k3 : event_kind) :
  kind_ltb k1 k2 = false -> kind_ltb k2 k3 = false -> kind_ltb k1 k3 = false.
Proof. destruct k1, k2, k3; simpl; congruence. Qed.

(** "Not smaller than" is transitive: the tuple order is a total preorder. *)
Lemma tuple_ltb_false_trans (e1 e2 e3 : event) :
  tuple_ltb e1 e2 = false -> tuple_ltb e2 e3 = false -> tuple_ltb e1 e3 = false.
Proof.
  rewrite !tuple_ltb_false.
  intros [H12 | [E12 K12]] [H23 | [E23 K23]].
  - left; lra.
  - left; lra.
  - left; lra.
  - right. split; [lra | eapply kind_ltb_false_trans; eassumption].
Qed.

Lemma tuple_ltb_asym (e1 e2 : event) :
  tuple_ltb e1 e2 = true -> tuple_ltb e2 e1 = false.
Proof.
  intros H. apply tuple_ltb_false. unfold tuple_ltb in H.
  destruct (Qcompare_spec (fst e1) (fst e2)) as [E | L | G].
  - right. split; [symmetry; assumption |].
    destruct (snd e1), (snd e2); simpl in *; congruence.
  - left; assumption.
  - discriminate.
Qed.

Lemma heappop_none (h : list event) : heappop h = None <-> h = [].
Proof.
  destruct h as [| e h']; simpl; [tauto |].
  destruct (heappop h') as [[m rest] |]; [destruct (tuple_ltb m e) |];
    split; discriminate.
Qed.

(** [heappop] takes exactly one occurrence out and keeps the order of the
    others. *)
Lemma heappop_split (h : list event) : forall m rest,
  heappop h = Some (m, rest) ->
  exists l1 l2, h = l1 ++ m :: l2 /\ rest = l1 ++ l2.
Proof.
  induction h as [| e h' IH]; intros m rest H; simpl in H; [discriminate |].
  destruct (heappop h') as [[m' rest'] |] eqn:E.
  - destruct (tuple_ltb m' e).
    + injection H as <- <-. destruct (IH _ _ eq_refl) as (l1 & l2 & -> & ->).
      exists (e :: l1), l2. split; reflexivity.
    + injection H as <- <-. exists [], h'. split; reflexivity.
  - injection H as <- <-. apply heappop_none in E. subst h'.
    exists [], []. split; reflexivity.
Qed.

(** No event left behind is smaller than the one returned. *)
Lemma heappop_least (h : list event) : forall m rest,
  heappop h = Some (m, rest) ->
  Forall (fun e => tuple_ltb e m = false) rest.
Proof.
  induction h as [| e h' IH]; intros m rest H; simpl in H; [discriminate |].
  destruct (heappop h') as [[m' rest'] |] eqn:E.
  - destruct (tuple_ltb m' e) eqn:L.
    + injection H as <- <-. constructor.
      * apply tuple_ltb_asym; assumption.
      * apply IH; reflexivity.
    + injection H as <- <-.
      destruct (heappop_split _ _ _ E) as (l1 & l2 & -> & ->).
      specialize (IH _ _ eq_refl). rewrite Forall_app in IH. destruct IH as [IH1 IH2].
      assert (Hstep : forall x, tuple_ltb x m' = false -> tuple_ltb x e = false)
        by (intros x Hx; eapply tuple_ltb_false_trans; eassumption).
      rewrite Forall_app. split; [| constructor; [assumption |]];
        (eapply Forall_impl; [exact Hstep | assumption]).
  - injection H as <- <-. constructor.
Qed.


(** C2, as the code has it. [heappop] fails exactly on the empty scheduler;
    otherwise it removes one pending event and returns it, no pending event
    has a smaller time, and among pending events of equal time an arrival
    is returned before a departure: ties are broken by the kind of the
    event, not by the order of insertion. *)
Theorem heappop_smallest_time_then_kind (h : list event) :
  match heappop h with
  | None => h = []
  | Some (m, rest) =>
      (exists l1 l2, h = l1 ++ m :: l2 /\ rest = l1 ++ l2)
      /\ Forall (fun e =>
                   (fst m <= fst e)%Q
                   /\ ((fst e == fst m)%Q -> snd e = Arrival -> snd m = Arrival))
                rest
  end.
Proof.
  destruct (heappop h) as [[m rest] |] eqn:E.
  - split; [apply heappop_split; assumption |].
    eapply Forall_impl; [| apply (heappop_least _ _ _ E)].
    intros e He. apply tuple_ltb_false in He. split.
    + destruct He as [He | [He _]]; lra.
    + intros Heq Harr. destruct He as [He | [_ He]]; [lra |].
      rewrite Harr in He. destruct (snd m); [reflexivity | discriminate].
  - apply heappop_none; assumption.
Qed.


(** ** Lists indexed the Python way *)

Lemma alter_nth_length {A : Type} (f : A -> A) (n : nat) : forall l : list A,
  length (alter_nth f n l) = length l.
Proof.
  induction n as [| n IH]; intros [| x l]; simpl; try reflexivity.
  rewrite IH. reflexivity.
Qed.

Lemma py_index_in_range (len : nat) (i : Z) :
  0 <= i < Z.of_nat len -> py_index len i = Some (Z.to_nat i).
Proof.
  intros [H0 H1]. unfold py_index.
  apply Z.leb_le in H0. apply Z.ltb_lt in H1. rewrite H0, H1. reflexivity.
Qed.


Lemma iadd_item_length (l : list Q) (i : Z) (d : Q) (l' : list Q) :
  iadd_item l i d = Ok l' -> length l' = length l.
Proof.
  unfold iadd_item. destruct (py_index (length l) i); [| discriminate].
  intros H. injection H as <-. apply alter_nth_length.
Qed.

Lemma iadd_item_empty (i : Z) (d : Q) : iadd_item [] i d = Raise IndexError.
Proof.
  unfold iadd_item, py_index. simpl.
  destruct (Z.leb_spec 0 i) as [Hi | Hi], (Z.ltb_spec i 0) as [Hn | Hn],
    (Z.leb_spec (-0) i) as [Hb | Hb]; simpl; try reflexivity; lia.
Qed.

Lemma fold_left_Qplus_acc (l : list Q) : forall acc : Q,
  (fold_left Qplus l acc == acc + py_sum l)%Q.
Proof.
  unfold py_sum. induction l as [| x l IH]; intros acc; simpl.
  - ring.
  - rewrite (IH (acc + x)%Q), (IH (0 + x)%Q). ring.
Qed.

Lemma py_sum_cons (x : Q) (l : list Q) : (py_sum (x :: l) == x + py_sum l)%Q.
Proof.
  unfold py_sum at 1. simpl. rewrite fold_left_Qplus_acc. ring.
Qed.





(** ** Departures pending in the scheduler *)

Lemma pending_departures_app (h1 h2 : list event) :
  pending_departures (h1 ++ h2) = pending_departures h1 + pending_departures h2.
Proof.
  unfold pending_departures. rewrite filter_app, length_app. lia.
Qed.

Lemma pending_departures_push (h : list event) (e : event) :
  pending_departures (heappush h e)
  = pending_departures h + (if is_departure e then 1 else 0).
Proof.
  unfold heappush. rewrite pending_departures_app. f_equal.
  unfold pending_departures. simpl. destruct (is_departure e); reflexivity.
Qed.

Lemma pending_departures_pop (h : list event) (m : event) (rest : list event) :
  heappop h = Some (m, rest) ->
  pending_departures h = pending_departures rest + (if is_departure m then 1 else 0).
Proof.
  intros H. destruct (heappop_split _ _ _ H) as (l1 & l2 & -> & ->).
  rewrite !pending_departures_app. unfold pending_departures at 2. simpl.
  destruct (is_departure m); simpl length; unfold pending_departures; lia.
Qed.

Lemma pending_departures_nonneg (h : list event) : 0 <= pending_departures h.
Proof. unfold pending_departures. lia. Qed.

(** ** One iteration of the loop *)

Ltac draw_cases H :=
  match type of H with
  | context [next_random ?g] =>
      let Hrc := fresh "Hrc" in
      let x := fresh "x" in
      let Hnr := fresh "Hnr" in
      let Hx := fresh "Hx" in
      destruct (next_random_cases g) as [(Hrc & x & Hnr & Hx) | (Hrc & Hnr)];
      rewrite Hnr in H; clear Hnr;
      cbn [gen set_gen set_state set_losses set_event_list
           schedule_departure schedule_arrival
           state losses current_time time_in_state event_list
           previous random_count] in H, Hrc
  end.

(** Splits a hypothesis about [handle_event] into the paths through the
    body. *)
Ltac step_cases H :=
  unfold handle_event, next_arrival, try_draw in H;
  cbn [gen set_gen set_state set_losses set_event_list
       state losses current_time time_in_state event_list] in H;
  repeat match type of H with
    | context [iadd_item ?l ?i ?d] =>
        let tis := fresh "tis" in
        let Htis := fresh "Htis" in
        destruct (iadd_item l i d) as [tis | ?] eqn:Htis
    | context [match ?k with Arrival => _ | Departure => _ end] => destruct k
    | context [?x <? ?y] =>
        let Hlt := fresh "Hlt" in destruct (Z.ltb_spec x y) as [Hlt | Hlt]
    | context [?x <=? ?y] =>
        let Hle := fresh "Hle" in destruct (Z.leb_spec x y) as [Hle | Hle]
    | context [?x >=? ?y] => rewrite (Z.geb_leb x y) in H
    | _ => draw_cases H
    end;
  try discriminate H.

Ltac step_done H :=
  first [ injection H as <- | discriminate H ];
  cbn [gen set_gen set_state set_losses set_event_list
       schedule_departure schedule_arrival
       state losses current_time time_in_state event_list
       previous random_count].

Lemma loop_guard_true (s : sim_state) :
  loop_guard s = true -> event_list s <> [] /\ 0 < random_count (gen s).
Proof.
  unfold loop_guard. destruct (event_list s); [discriminate |].
  intros H. apply Z.ltb_lt in H. split; [discriminate | assumption].
Qed.

Lemma loop_guard_false (s : sim_state) :
  loop_guard s = false -> event_list s = [] \/ random_count (gen s) <= 0.
Proof.
  unfold loop_guard. destruct (event_list s); [left; reflexivity |].
  intros H. apply Z.ltb_ge in H. right; assumption.
Qed.

(** The fields every path through the body sets in the same way. *)
Lemma handle_event_fields (p : params) (s : sim_state) (t : Q) (k : event_kind)
      (rest : list event) (s' : sim_state) :
  handle_event p s (t, k) rest = Continue s'
  \/ handle_event p s (t, k) rest = Break s' ->
  iadd_item (time_in_state s) (state s) (t - current_time s) = Ok (time_in_state s')
  /\ current_time s' = t
  /\ state s' = match k with
                | Arrival => if state s <? capacity p then state s + 1 else state s
                | Departure => state s - 1
                end
  /\ losses s' = match k with
                 | Arrival => if state s <? capacity p then losses s else losses s + 1
                 | Departure => losses s
                 end.
Proof.
  intros [H | H]; step_cases H; step_done H;
    repeat match goal with
      | |- context [?x <? ?y] => destruct (Z.ltb_spec x y); try lia
      end;
    repeat split; assumption.
Qed.

(** Each iteration uses up some of the potential, and the budget never
    drops below zero. *)
Lemma handle_event_potential (p : params) (s : sim_state) (e : event)
      (rest : list event) (s' : sim_state) :
  loop_guard s = true ->
  heappop (event_list s) = Some (e, rest) ->
  handle_event p s e rest = Continue s' \/ handle_event p s e rest = Break s' ->
  0 <= potential s' <= potential s - 1
  /\ 0 <= random_count (gen s') <= random_count (gen s).
Proof.
  intros G Hpop H. apply loop_guard_true in G. destruct G as [_ G].
  apply pending_departures_pop in Hpop. destruct e as [t k].
  unfold potential. rewrite Hpop. clear Hpop.
  pose proof (pending_departures_nonneg rest) as Hnn.
  destruct H as [H | H]; step_cases H; step_done H;
    rewrite ?pending_departures_push; cbn [is_departure snd]; lia.
Qed.

(** A [break] happens only on a failed draw, which leaves no budget. *)
Lemma handle_event_break (p : params) (s : sim_state) (e : event)
      (rest : list event) (s' : sim_state) :
  handle_event p s e rest = Break s' -> random_count (gen s') <= 0.
Proof.
  intros H. destruct e as [t k]. step_cases H; step_done H; lia.
Qed.

Lemma handle_event_occupancy (p : params) (s : sim_state) (e : event)
      (rest : list event) (s' : sim_state) :
  occupancy_inv p s ->
  loop_guard s = true ->
  heappop (event_list s) = Some (e, rest) ->
  handle_event p s e rest = Continue s' \/ handle_event p s e rest = Break s' ->
  occupancy_inv p s'.
Proof.
  intros (Hst & Hlen & Hpend) G Hpop H.
  apply loop_guard_true in G. destruct G as [_ G].
  apply pending_departures_pop in Hpop. destruct e as [t k].
  rewrite Hpop in Hpend. clear Hpop.
  pose proof (pending_departures_nonneg rest) as Hnn.
  unfold occupancy_inv.
  destruct H as [H | H]; step_cases H; step_done H;
    rewrite ?pending_departures_push; cbn [is_departure snd] in *;
    (split; [lia | split; [erewrite iadd_item_length by eassumption; assumption | lia]]).
Qed.

(** With the invariant the accrual never indexes out of range. *)
Lemma handle_event_no_raise (p : params) (s : sim_state) (e : event)
      (rest : list event) :
  occupancy_inv p s ->
  exists s', handle_event p s e rest = Continue s' \/ handle_event p s e rest = Break s'.
Proof.
  intros (Hst & Hlen & _). destruct e as [t k].
  assert (Hok : exists tis,
             iadd_item (time_in_state s) (state s) (t - current_time s) = Ok tis).
  { unfold iadd_item. rewrite py_index_in_range by lia. eauto. }
  destruct Hok as [tis Hok].
  destruct (handle_event p s (t, k) rest) as [s' | s' | x] eqn:H; eauto.
  exfalso. step_cases H. congruence.
Qed.

(** ** The loop *)

Lemma run_loop_log (p : params) : forall (fuel : nat) (s : sim_state),
  Forall (processed_step p) (fst (run_loop fuel p s)).
Proof.
  induction fuel as [| fuel IH]; intros s; simpl.
  - destruct (loop_guard s); constructor.
  - destruct (loop_guard s) eqn:G; [| constructor].
    destruct (heappop (event_list s)) as [[e rest] |] eqn:Hpop; [| constructor].
    destruct (handle_event p s e rest) as [s' | s' | x] eqn:H.
    + specialize (IH s'). destruct (run_loop fuel p s') as [log fin]. simpl in *.
      constructor; [| assumption].
      split; [assumption |]. exists rest. simpl. auto.
    + constructor; [| constructor].
      split; [assumption |]. exists rest. simpl. auto.
    + constructor.
Qed.

(** The invariant rule of the loop. *)
Lemma run_loop_invariant (p : params) (I : sim_state -> Prop) :
  (forall s e rest s',
      I s -> loop_guard s = true -> heappop (event_list s) = Some (e, rest) ->
      handle_event p s e rest = Continue s' \/ handle_event p s e rest = Break s' ->
      I s') ->
  forall (fuel : nat) (s : sim_state),
    I s ->
    Forall (fun r => I (pre r) /\ I (post r)) (fst (run_loop fuel p s))
    /\ match snd (run_loop fuel p s) with
       | Halted s' | OutOfFuel s' => I s'
       | Aborted _ => True
       end.
Proof.
  intros Hstep. induction fuel as [| fuel IH]; intros s Hs; simpl.
  - destruct (loop_guard s); simpl; auto.
  - destruct (loop_guard s) eqn:G; [| simpl; auto].
    destruct (heappop (event_list s)) as [[e rest] |] eqn:Hpop; [| simpl; auto].
    destruct (handle_event p s e rest) as [s' | s' | x] eqn:H; [| | simpl; auto].
    + assert (Hs' : I s') by (eapply Hstep; eauto).
      specialize (IH s' Hs'). destruct (run_loop fuel p s') as [log fin].
      simpl in *. destruct IH as [IH1 IH2]. split; [constructor |]; auto.
    + assert (Hs' : I s') by (eapply Hstep; eauto).
      simpl. split; [constructor |]; auto.
Qed.

(** The loop stops within [potential] iterations. *)
Lemma run_loop_terminates (p : params) : forall (fuel : nat) (s : sim_state),
  potential s <= Z.of_nat fuel ->
  (forall s', snd (run_loop fuel p s) <> OutOfFuel s')
  /\ Z.of_nat (length (fst (run_loop fuel p s))) <= Z.max 0 (potential s).
Proof.
  induction fuel as [| fuel IH]; intros s Hpot; simpl.
  - destruct (loop_guard s) eqn:G; simpl; [| split; [discriminate | lia]].
    exfalso. apply loop_guard_true in G. unfold potential in Hpot.
    pose proof (pending_departures_nonneg (event_list s)). lia.
  - destruct (loop_guard s) eqn:G; simpl; [| split; [discriminate | lia]].
    destruct (heappop (event_list s)) as [[e rest] |] eqn:Hpop;
      [| simpl; split; [discriminate | lia]].
    destruct (handle_event p s e rest) as [s' | s' | x] eqn:H.
    + destruct (handle_event_potential p s e rest s' G Hpop (or_introl H)) as [Hp _].
      specialize (IH s' ltac:(lia)). destruct (run_loop fuel p s') as [log fin].
      simpl in *. destruct IH as [IH1 IH2]. split; [assumption | lia].
    + destruct (handle_event_potential p s e rest s' G Hpop (or_intror H)) as [Hp _].
      simpl. split; [discriminate | lia].
    + simpl. split; [discriminate | lia].
Qed.

(** Fuel beyond what the loop uses changes nothing. *)
Lemma run_loop_more_fuel (p : params) : forall (fuel : nat) (s : sim_state),
  (forall s', snd (run_loop fuel p s) <> OutOfFuel s') ->
  forall fuel', (fuel <= fuel')%nat -> run_loop fuel' p s = run_loop fuel p s.
Proof.
  induction fuel as [| fuel IH]; intros s Hfin fuel' Hle.
  - simpl in *. destruct (loop_guard s) eqn:G.
    + exfalso. apply (Hfin s). reflexivity.
    + destruct fuel'; simpl; rewrite G; reflexivity.
  - destruct fuel' as [| fuel']; [lia |]. simpl in *.
    destruct (loop_guard s); [| reflexivity].
    destruct (heappop (event_list s)) as [[e rest] |]; [| reflexivity].
    destruct (handle_event p s e rest) as [s' | s' | x]; try reflexivity.
    rewrite (IH s'); [reflexivity | | lia].
    intros s'' Hs''. apply (Hfin s''). destruct (run_loop fuel p s'). simpl in *.
    assumption.
Qed.

Lemma last_cons_default {A : Type} (l : list A) : forall x d : A,
  last (x :: l) d = last l x.
Proof.
  induction l as [| y l IH]; intros x d; [reflexivity |].
  change (last (x :: y :: l) d) with (last (y :: l) d). rewrite !IH. reflexivity.
Qed.

(** The state the loop halts in is the one the last logged iteration left
    (the starting state if nothing was processed). *)
Lemma run_loop_final (p : params) : forall (fuel : nat) (s s' : sim_state),
  snd (run_loop fuel p s) = Halted s' ->
  s' = last (map post (fst (run_loop fuel p s))) s.
Proof.
  induction fuel as [| fuel IH]; intros s s' Hfin; simpl in *.
  - destruct (loop_guard s); simpl in *; congruence.
  - destruct (loop_guard s); [| simpl in *; congruence].
    destruct (heappop (event_list s)) as [[e rest] |]; [| discriminate].
    destruct (handle_event p s e rest) as [s1 | s1 | x]; simpl in *; try congruence.
    specialize (IH s1 s'). destruct (run_loop fuel p s1) as [log fin]. simpl in *.
    specialize (IH Hfin).
    change (s' = last (s1 :: map post log) s). rewrite last_cons_default. assumption.
Qed.

(** ** A whole run *)

Lemma initial_occupancy (p : params) (g0 : generator) :
  0 <= capacity p -> occupancy_inv p (initial_state p g0).
Proof.
  intros Hcap. unfold occupancy_inv, initial_state. simpl.
  split; [lia | split; [apply repeat_length |]].
  unfold pending_departures. simpl. lia.
Qed.

Lemma initial_guard (p : params) (g0 : generator) :
  loop_guard (initial_state p g0) = (0 <? num_randoms p).
Proof. reflexivity. Qed.

Lemma initial_pop (p : params) (g0 : generator) :
  heappop (event_list (initial_state p g0)) = Some ((first_arrival p, Arrival), []).
Proof. reflexivity. Qed.

(** With a negative capacity [time_in_state] is empty and the first accrual
    raises. *)
Lemma negative_capacity_aborts (p : params) (g0 : generator) (fuel : nat) :
  capacity p < 0 ->
  fst (run_loop fuel p (initial_state p g0)) = []
  /\ (0 < num_randoms p -> (0 < fuel)%nat ->
      snd (run_loop fuel p (initial_state p g0)) = Aborted IndexError).
Proof.
  intros Hcap.
  assert (Hemp : time_in_state (initial_state p g0) = []).
  { unfold initial_state. simpl. replace (Z.to_nat (capacity p + 1)) with O by lia.
    reflexivity. }
  destruct fuel as [| fuel]; cbn [run_loop]; rewrite initial_guard.
  - destruct (0 <? num_randoms p); (split; [reflexivity | intros; lia]).
  - destruct (Z.ltb_spec 0 (num_randoms p)) as [Hn | Hn];
      [| split; [reflexivity | intros; lia]].
    rewrite initial_pop. unfold handle_event. rewrite Hemp, iadd_item_empty.
    split; reflexivity.
Qed.

Lemma run_loop_no_abort (p : params) : forall (fuel : nat) (s : sim_state),
  occupancy_inv p s ->
  forall x, snd (run_loop fuel p s) <> Aborted x.
Proof.
  induction fuel as [| fuel IH]; intros s Hs x; simpl.
  - destruct (loop_guard s); discriminate.
  - destruct (loop_guard s) eqn:G; [| discriminate].
    destruct (heappop (event_list s)) as [[e rest] |] eqn:Hpop.
    + destruct (handle_event_no_raise p s e rest Hs) as [s' H].
      pose proof (handle_event_occupancy p s e rest s' Hs G Hpop H) as Hs'.
      destruct H as [H | H]; rewrite H; [| discriminate].
      specialize (IH s' Hs' x). destruct (run_loop fuel p s'). assumption.
    + apply heappop_none in Hpop. apply loop_guard_true in G. tauto.
Qed.

Lemma run_loop_halt_reason (p : params) : forall (fuel : nat) (s s' : sim_state),
  snd (run_loop fuel p s) = Halted s' ->
  event_list s' = [] \/ random_count (gen s') <= 0.
Proof.
  induction fuel as [| fuel IH]; intros s s' Hfin; simpl in Hfin.
  - destruct (loop_guard s) eqn:G; [discriminate |].
    injection Hfin as <-. apply loop_guard_false; assumption.
  - destruct (loop_guard s) eqn:G;
      [| injection Hfin as <-; apply loop_guard_false; assumption].
    destruct (heappop (event_list s)) as [[e rest] |]; [| discriminate].
    destruct (handle_event p s e rest) as [s1 | s1 | x] eqn:H; [| | discriminate].
    + apply (IH s1). destruct (run_loop fuel p s1). assumption.
    + injection Hfin as <-. right. eapply handle_event_break; eassumption.
Qed.

(** Every logged iteration started and ended with the occupancy invariant. *)
Lemma run_log_occupancy (p : params) (g0 : generator) (fuel : nat) :
  Forall (fun r => occupancy_inv p (pre r) /\ occupancy_inv p (post r))
         (fst (run_loop fuel p (initial_state p g0))).
Proof.
  destruct (Z_lt_le_dec (capacity p) 0) as [Hneg | Hcap].
  - rewrite (proj1 (negative_capacity_aborts p g0 fuel Hneg)). constructor.
  - apply run_loop_invariant.
    + intros s e rest s' Hs G Hpop H. eapply handle_event_occupancy; eassumption.
    + apply initial_occupancy; assumption.
Qed.

(** C5. At every event the run processes, the occupancy lies between 0 and
    the capacity, both when the event is popped and when its iteration
    ends. *)
Theorem occupancy_within_capacity (p : params) (g0 : generator) :
  Forall (fun r => 0 <= state (pre r) <= capacity p
                   /\ 0 <= state (post r) <= capacity p)
         (processed p g0).
Proof.
  eapply Forall_impl; [| apply run_log_occupancy].
  intros r [(Hpre & _) (Hpost & _)]. split; assumption.
Qed.

(** C7. At every processed event the loss counter goes up by one exactly
    when the event is an arrival popped while the occupancy equals the
    capacity, in which case the occupancy stays as it was; at every other
    processed event the loss counter is unchanged. *)
Theorem losses_count_rejected_arrivals (p : params) (g0 : generator) :
  Forall (fun r =>
            (snd (ev r) = Arrival /\ state (pre r) = capacity p ->
             losses (post r) = losses (pre r) + 1 /\ state (post r) = state (pre r))
            /\ (~ (snd (ev r) = Arrival /\ state (pre r) = capacity p) ->
                losses (post r) = losses (pre r)))
         (processed p g0).
Proof.
  pose proof (Forall_and (run_loop_log p (loop_bound p) (initial_state p g0))
                         (run_log_occupancy p g0 (loop_bound p))) as Hall.
  eapply Forall_impl; [| exact Hall].
  intros [s [t k] s'] [(_ & rest & _ & H) [(Hocc & _) _]]. cbn [pre post ev snd] in *.
  apply handle_event_fields in H. destruct H as (_ & _ & Hst & Hlo).
  destruct k.
  - destruct (Z.ltb_spec (state s) (capacity p)) as [Hlt | Hge].
    + split; [intros [_ Heq]; lia | intros _; assumption].
    + split; [intros _; split; assumption | intros Hn; exfalso; apply Hn; split; [reflexivity | lia]].
  - split; [intros [Hk _]; discriminate | intros _; assumption].
Qed.

Lemma initial_potential (p : params) (g0 : generator) :
  potential (initial_state p g0) = 2 * num_randoms p.
Proof. unfold potential, pending_departures. simpl. lia. Qed.

(** [loop_bound] iterations are enough for any parameters. *)
Lemma run_within_bound (p : params) (g0 : generator) :
  (forall s', snd (run_loop (loop_bound p) p (initial_state p g0)) <> OutOfFuel s')
  /\ Z.of_nat (length (processed p g0)) <= Z.max 0 (2 * num_randoms p).
Proof.
  unfold processed. rewrite <- (initial_potential p g0).
  apply run_loop_terminates. rewrite initial_potential. unfold loop_bound. lia.
Qed.

(** The log of [processed] is the whole run: more fuel adds nothing. *)
Lemma processed_complete (p : params) (g0 : generator) (fuel : nat) :
  (loop_bound p <= fuel)%nat ->
  fst (run_loop fuel p (initial_state p g0)) = processed p g0.
Proof.
  intros Hle. unfold processed.
  rewrite (run_loop_more_fuel p (loop_bound p) _ (proj1 (run_within_bound p g0)) fuel Hle).
  reflexivity.
Qed.

Lemma simulate_queue_total (p : params) (g0 : generator) :
  simulate_queue p g0 <> None.
Proof.
  unfold simulate_queue, simulate_queue_fuel.
  pose proof (proj1 (run_within_bound p g0)) as Hfuel.
  destruct (snd (run_loop (loop_bound p) p (initial_state p g0))) as [s | x | s];
    try discriminate.
  exfalso. apply (Hfuel s). reflexivity.
Qed.

Lemma simulate_queue_fuel_stable (p : params) (g0 : generator) (fuel : nat) :
  (loop_bound p <= fuel)%nat -> simulate_queue_fuel fuel p g0 = simulate_queue p g0.
Proof.
  intros Hle. unfold simulate_queue, simulate_queue_fuel.
  rewrite (run_loop_more_fuel p (loop_bound p) _ (proj1 (run_within_bound p g0)) fuel Hle).
  reflexivity.
Qed.

Lemma valid_parameters_true (p : params) :
  valid_parameters p = true ->
  0 <= capacity p /\ 0 < servers p
  /\ (min_arrival p <= max_arrival p)%Q /\ (min_service p <= max_service p)%Q
  /\ 0 < num_randoms p.
Proof.
  unfold valid_parameters. rewrite !andb_true_iff.
  intros ((((Hc & Hs) & Ha) & Hv) & Hn).
  apply Z.leb_le in Hc. apply Z.ltb_lt in Hs. apply Z.ltb_lt in Hn.
  apply Qle_bool_iff in Ha. apply Qle_bool_iff in Hv. tauto.
Qed.

(** A run that starts with a capacity of at least zero halts normally. *)
Lemma run_halts (p : params) (g0 : generator) :
  0 <= capacity p ->
  exists s, snd (run_loop (loop_bound p) p (initial_state p g0)) = Halted s.
Proof.
  intros Hcap.
  pose proof (proj1 (run_within_bound p g0)) as Hfuel.
  pose proof (run_loop_no_abort p (loop_bound p) _ (initial_occupancy p g0 Hcap)) as Hab.
  destruct (snd (run_loop (loop_bound p) p (initial_state p g0))) as [s | x | s].
  - exists s; reflexivity.
  - exfalso. apply (Hab x). reflexivity.
  - exfalso. apply (Hfuel s). reflexivity.
Qed.

(** An iteration makes at most two draws, all within the remaining budget. *)
Lemma handle_event_draws (p : params) (s : sim_state) (e : event)
      (rest : list event) (s' : sim_state) :
  handle_event p s e rest = Continue s' \/ handle_event p s e rest = Break s' ->
  exists k : nat,
    (k <= 2)%nat
    /\ Z.of_nat k <= Z.max 0 (random_count (gen s))
    /\ gen s' = mkGen (Nat.iter k lcg_next (previous (gen s)))
                      (random_count (gen s) - Z.of_nat k).
Proof.
  intros H. destruct e as [t k0].
  destruct H as [H | H]; step_cases H; step_done H;
    first [ exists 2%nat; split; [lia | split; [lia |]]; simpl; f_equal; lia
          | exists 1%nat; split; [lia | split; [lia |]]; simpl; f_equal; lia
          | exists 0%nat; split; [lia | split; [lia |]]; destruct (gen s); simpl;
            f_equal; lia ].
Qed.

Lemma handle_event_stream (p : params) (s : sim_state) (e : event)
      (rest : list event) (s' : sim_state) :
  stream_inv p s ->
  handle_event p s e rest = Continue s' \/ handle_event p s e rest = Break s' ->
  stream_inv p s'.
Proof.
  intros (k & Hk & Hgen) H.
  destruct (handle_event_draws p s e rest s' H) as (j & _ & Hj & Hgen').
  rewrite Hgen in Hgen', Hj. cbn [previous random_count] in Hgen', Hj.
  exists (j + k)%nat. split; [lia |].
  rewrite Hgen', Nat.iter_add. f_equal. lia.
Qed.

Lemma initial_stream (p : params) (g0 : generator) :
  0 <= num_randoms p -> stream_inv p (initial_state p g0).
Proof.
  intros Hn. exists 0%nat. split; [lia |]. simpl. unfold reset_random. f_equal. lia.
Qed.

(** C9. With valid parameters the loop halts after at most
    [2 * num_randoms] processed events and [simulate_queue] returns a
    result; when it halts the scheduler is empty or the generator is
    exhausted; [random_count] ends between 0 and [num_randoms], so at most
    [num_randoms] draws succeeded: the generator is left where some
    [k <= num_randoms] successful calls of [next_random] after the reset
    leave it; unrolling the loop further changes nothing. *)
Theorem simulate_queue_terminates (p : params) (g0 : generator) :
  valid_parameters p = true ->
  exists s,
    snd (run_loop (loop_bound p) p (initial_state p g0)) = Halted s
    /\ simulate_queue p g0 = Some (Ok (aggregate p s))
    /\ (event_list s = [] \/ random_count (gen s) <= 0)
    /\ 0 <= random_count (gen s) <= num_randoms p
    /\ (exists k : nat,
          Z.of_nat k <= num_randoms p
          /\ draws k (reset_random (seed p) (num_randoms p) g0)
             = (map Ok (lcg_variates k (seed p)), gen s))
    /\ Z.of_nat (length (processed p g0)) <= 2 * num_randoms p
    /\ forall fuel, (loop_bound p <= fuel)%nat ->
                    simulate_queue_fuel fuel p g0 = simulate_queue p g0.
Proof.
  intros Hvalid. apply valid_parameters_true in Hvalid.
  destruct Hvalid as (Hcap & _ & _ & _ & Hn).
  destruct (run_halts p g0 Hcap) as [s Hs]. exists s.
  split; [assumption |].
  split; [unfold simulate_queue, simulate_queue_fuel; rewrite Hs; reflexivity |].
  split; [eapply run_loop_halt_reason; eassumption |].
  split.
  - assert (Hinv : match snd (run_loop (loop_bound p) p (initial_state p g0)) with
                   | Halted s' | OutOfFuel s' => 0 <= random_count (gen s') <= num_randoms p
                   | Aborted _ => True
                   end).
    { apply (run_loop_invariant p (fun s => 0 <= random_count (gen s) <= num_randoms p)).
      - intros s1 e rest s2 Hs1 G Hpop H.
        pose proof (handle_event_potential p s1 e rest s2 G Hpop H). lia.
      - simpl. lia. }
    rewrite Hs in Hinv. exact Hinv.
  - split.
    { assert (Hinv : match snd (run_loop (loop_bound p) p (initial_state p g0)) with
                     | Halted s' | OutOfFuel s' => stream_inv p s'
                     | Aborted _ => True
                     end).
      { apply (run_loop_invariant p (stream_inv p)).
        - intros s1 e rest s2 Hs1 _ _ H. eapply handle_event_stream; eassumption.
        - apply initial_stream. lia. }
      rewrite Hs in Hinv. destruct Hinv as (k & Hk & Hgen). exists k.
      split; [assumption |].
      rewrite draws_within_budget by (simpl; lia). rewrite Hgen. reflexivity. }
    split.
    + pose proof (proj2 (run_within_bound p g0)). lia.
    + intros fuel Hfuel. apply simulate_queue_fuel_stable; assumption.
Qed.

Lemma simulate_queue_terminates_witness :
  exists s,
    snd (run_loop 12 (mkParams 1 5 2 2 5 3 5 6 12345)
                  (initial_state (mkParams 1 5 2 2 5 3 5 6 12345) (mkGen 0 0)))
    = Halted s
    /\ random_count (gen s) = 0.
Proof.
  destruct (simulate_queue_terminates (mkParams 1 5 2 2 5 3 5 6 12345) (mkGen 0 0)
              ltac:(vm_compute; reflexivity)) as (s & Hs & _).
  exists s. split; [exact Hs |].
  vm_compute in Hs. injection Hs as <-. reflexivity.
Defined.

(** ** Accrued time *)






(** ** The clock never runs backwards *)




Section NonnegativeDurations.

Variable p : params.
Hypothesis arrival_bounds : (0 <= min_arrival p <= max_arrival p)%Q.
Hypothesis service_bounds : (0 <= min_service p <= max_service p)%Q.



End NonnegativeDurations.


(** ** Result aggregation *)

Lemma Qpositive_true (x : Q) : Qpositive x = true <-> (0 < x)%Q.
Proof.
  unfold Qpositive. destruct (Qcompare_spec 0 x) as [E | L | G].
  - split; [discriminate | intros H; rewrite <- E in H; exfalso; apply (Qlt_irrefl _ H)].
  - tauto.
  - split; [discriminate | intros H; lra].
Qed.

Lemma Qpositive_false (x : Q) : Qpositive x = false <-> (x <= 0)%Q.
Proof.
  destruct (Qpositive x) eqn:E.
  - apply Qpositive_true in E. split; [discriminate | intros H; lra].
  - split; [intros _ | reflexivity].
    destruct (Qlt_le_dec 0 x) as [L | L]; [| assumption].
    apply Qpositive_true in L. congruence.
Qed.

Lemma py_sum_pointwise (l1 l2 : list Q) :
  Forall2 Qeq l1 l2 -> (py_sum l1 == py_sum l2)%Q.
Proof.
  induction 1 as [| x y l1 l2 Hxy Hl IH]; [reflexivity |].
  rewrite !py_sum_cons, Hxy, IH. reflexivity.
Qed.

Lemma Forall2_map_pointwise {A : Type} (f g : A -> Q) (l : list A) :
  (forall x, f x == g x)%Q -> Forall2 Qeq (map f l) (map g l).
Proof.
  intros Hfg. induction l as [| x l IH]; simpl; constructor; auto.
Qed.

(** C6, as the code has it. The aggregator is a function of the final
    [time_in_state] and clock alone. When the clock is positive,
    [probabilities[i] = time_in_state[i] / clock * 100] for every index and
    [avg_population] is the sum over [i] of [i * time_in_state[i] / clock];
    when the clock is zero or negative every probability and the average
    population are 0. *)
Theorem aggregator_formulas (tis : list Q) (clock : Q) :
  ((0 < clock)%Q ->
   compute_probabilities tis clock = map (fun t => t / clock * 100)%Q tis
   /\ (compute_avg_population tis clock ==
       py_sum (map (fun i => inject_Z (Z.of_nat i) * nth i tis 0 / clock)
                   (seq 0 (length tis))))%Q)
  /\ ((clock <= 0)%Q ->
      compute_probabilities tis clock = map (fun _ => 0%Q) tis
      /\ compute_avg_population tis clock = 0%Q)
  /\ (forall (p : params) (s : sim_state),
         time_in_state s = tis -> current_time s = clock ->
         probabilities (aggregate p s) = compute_probabilities tis clock
         /\ avg_population (aggregate p s) = compute_avg_population tis clock).
Proof.
  unfold compute_probabilities, compute_avg_population. repeat split.
  - apply Qpositive_true in H. rewrite H. reflexivity.
  - pose proof H as Hpos. apply Qpositive_true in H. rewrite H.
    apply py_sum_pointwise, Forall2_map_pointwise.
    intros i. field. intros Hz. rewrite Hz in Hpos. apply (Qlt_irrefl _ Hpos).
  - apply Qpositive_false in H. rewrite H. reflexivity.
  - apply Qpositive_false in H. rewrite H. reflexivity.
  - simpl. subst. reflexivity.
  - simpl. subst. reflexivity.
Qed.

Lemma aggregator_formulas_witness :
  compute_probabilities [1; 3]%Q 4 = map (fun t => t / 4 * 100)%Q [1; 3]%Q
  /\ compute_probabilities [-1]%Q (-1) = map (fun _ => 0%Q) [-1]%Q.
Proof.
  split.
  - apply (proj1 (aggregator_formulas [1; 3]%Q 4)). reflexivity.
  - apply (proj1 (proj2 (aggregator_formulas [-1]%Q (-1)))). discriminate.
Defined.

(** C6, as stated, fails for a negative clock. A run whose first arrival is
    scheduled at time -1 ends with clock -1 and [time_in_state = [-1]]; the
    quotient formula gives probability 100 for state 0, the code reports 0. *)
Lemma aggregator_negative_clock :
  let p := mkParams 1 0 (-1) 2 2 3 3 1 1 in
  (exists r,
      simulate_queue p (mkGen 0 0) = Some (Ok r)
      /\ simulation_time r = (-1)%Q
      /\ res_time_in_state r = [(-1)%Q]
      /\ probabilities r = [0%Q]
      /\ spec_probabilities (res_time_in_state r) (simulation_time r)
         = [(-1 / -1 * 100)%Q])
  /\ ~ (forall tis clock,
           Forall2 Qeq (compute_probabilities tis clock) (spec_probabilities tis clock)).
Proof.
  split.
  - eexists. split; [vm_compute; reflexivity |]. repeat split.
  - intros H. specialize (H [(-1)%Q] (-1)%Q).
    inversion H as [| x y l1 l2 Hxy Hl]; subst. vm_compute in Hxy. discriminate.
Qed.

(** ** Parameters are not validated *)

Lemma run_starts (p : params) (g0 : generator) :
  0 < num_randoms p -> 0 <= capacity p -> processed p g0 <> [].
Proof.
  intros Hn Hcap. unfold processed.
  assert (Hfuel : exists fuel, loop_bound p = S fuel).
  { unfold loop_bound. exists (Nat.pred (Z.to_nat (2 * num_randoms p))). lia. }
  destruct Hfuel as [fuel ->]. cbn [run_loop]. rewrite initial_guard.
  replace (0 <? num_randoms p) with true by (symmetry; apply Z.ltb_lt; assumption).
  rewrite initial_pop.
  destruct (handle_event_no_raise p (initial_state p g0) (first_arrival p, Arrival) []
              (initial_occupancy p g0 Hcap)) as [s' [H | H]]; rewrite H.
  - destruct (run_loop fuel p s'). discriminate.
  - discriminate.
Qed.

Lemma run_not_entered (p : params) (g0 : generator) (fuel : nat) :
  num_randoms p <= 0 ->
  run_loop fuel p (initial_state p g0) = ([], Halted (initial_state p g0)).
Proof.
  intros Hn. destruct fuel; cbn [run_loop]; rewrite initial_guard;
    replace (0 <? num_randoms p) with false by (symmetry; apply Z.ltb_ge; assumption);
    reflexivity.
Qed.

(** C1, as the code has it. [simulate_queue] checks none of its parameters
    and never raises InvalidParameters. With [num_randoms <= 0] the loop is
    not entered and the result of the untouched initial state (simulated
    time 0, no losses) is returned. With [capacity < 0] and
    [num_randoms > 0] the first accrual raises IndexError before any event
    is processed. In every other case, whatever [servers] and the interval
    bounds are, the loop runs and a result is returned. *)
Theorem parameters_not_validated (p : params) (g0 : generator) :
  simulate_queue p g0 <> Some (Raise InvalidParameters)
  /\ (num_randoms p <= 0 ->
      processed p g0 = []
      /\ simulate_queue p g0 = Some (Ok (aggregate p (initial_state p g0))))
  /\ (0 < num_randoms p -> capacity p < 0 ->
      processed p g0 = [] /\ simulate_queue p g0 = Some (Raise IndexError))
  /\ (0 < num_randoms p -> 0 <= capacity p ->
      processed p g0 <> [] /\ exists r, simulate_queue p g0 = Some (Ok r)).
Proof.
  assert (Hzero : num_randoms p <= 0 ->
                  processed p g0 = []
                  /\ simulate_queue p g0 = Some (Ok (aggregate p (initial_state p g0)))).
  { intros Hn. unfold processed, simulate_queue, simulate_queue_fuel.
    rewrite run_not_entered by assumption. split; reflexivity. }
  assert (Hneg : 0 < num_randoms p -> capacity p < 0 ->
                 processed p g0 = [] /\ simulate_queue p g0 = Some (Raise IndexError)).
  { intros Hn Hcap. unfold processed, simulate_queue, simulate_queue_fuel.
    destruct (negative_capacity_aborts p g0 (loop_bound p) Hcap) as [Hlog Hend].
    rewrite Hlog, Hend; [split; reflexivity | assumption | unfold loop_bound; lia]. }
  assert (Hrun : 0 < num_randoms p -> 0 <= capacity p ->
                 processed p g0 <> [] /\ exists r, simulate_queue p g0 = Some (Ok r)).
  { intros Hn Hcap. split; [apply run_starts; assumption |].
    destruct (run_halts p g0 Hcap) as [s Hs]. exists (aggregate p s).
    unfold simulate_queue, simulate_queue_fuel. rewrite Hs. reflexivity. }
  split; [| tauto].
  destruct (Z_lt_le_dec 0 (num_randoms p)) as [Hn | Hn].
  - destruct (Z_lt_le_dec (capacity p) 0) as [Hcap | Hcap].
    + rewrite (proj2 (Hneg Hn Hcap)). discriminate.
    + destruct (proj2 (Hrun Hn Hcap)) as [r ->]. discriminate.
  - rewrite (proj2 (Hzero Hn)). discriminate.
Qed.

Lemma parameters_not_validated_witness :
  simulate_queue (mkParams 1 (-1) 2 2 5 3 5 6 12345) (mkGen 0 0)
  = Some (Raise IndexError)
  /\ processed (mkParams 1 5 2 2 5 3 5 0 12345) (mkGen 0 0) = []
  /\ processed (mkParams 0 1 2 2 2 3 3 3 1) (mkGen 0 0) <> [].
Proof.
  split; [| split].
  - destruct (parameters_not_validated (mkParams 1 (-1) 2 2 5 3 5 6 12345) (mkGen 0 0))
      as (_ & _ & H & _).
    apply H; simpl; lia.
  - destruct (parameters_not_validated (mkParams 1 5 2 2 5 3 5 0 12345) (mkGen 0 0))
      as (_ & H & _).
    apply H; simpl; lia.
  - destruct (parameters_not_validated (mkParams 0 1 2 2 2 3 3 3 1) (mkGen 0 0))
      as (_ & _ & _ & H).
    apply H; simpl; lia.
Defined.

(** C1, as stated, fails: with [servers = 0] the parameters are invalid,
    yet the run is not rejected; three arrivals are processed (one admitted
    and never served, two lost) and a result is returned. *)
Lemma invalid_servers_not_rejected :
  let p := mkParams 0 1 2 2 2 3 3 3 1 in
  valid_parameters p = false
  /\ length (processed p (mkGen 0 0)) = 3%nat
  /\ simulate_queue p (mkGen 0 0) <> Some (Raise InvalidParameters)
  /\ exists r,
       simulate_queue p (mkGen 0 0) = Some (Ok r)
       /\ res_losses r = 2
       /\ map Qred (res_time_in_state r) = [2%Q; 4%Q]
       /\ Qred (simulation_time r) = 6%Q.
Proof.
  split; [reflexivity |]. split; [vm_compute; reflexivity |].
  split; [vm_compute; discriminate |].
  eexists. split; [vm_compute; reflexivity |]. repeat split.
Qed.

(** ** Ties in the scheduler *)

(** C2, as stated, fails: with a departure and then an arrival scheduled
    for the same time, the arrival comes out first although it was inserted
    later. This happens in a run: with one server and all durations equal
    to 1, the first arrival schedules a departure and then the next arrival,
    both for time 1, and the arrival is processed first. *)
Lemma heappop_not_insertion_order :
  let h := heappush (heappush [] (5%Q, Departure)) (5%Q, Arrival) in
  heappop h = Some ((5%Q, Arrival), [(5%Q, Departure)])
  /\ heappop_fifo h = Some ((5%Q, Departure), [(5%Q, Arrival)])
  /\ ~ (forall h' : list event, heappop h' = heappop_fifo h')
  /\ (exists r,
         nth_error (processed (mkParams 1 5 0 1 1 1 1 4 1) (mkGen 0 0)) 1 = Some r
         /\ map (fun e => (Qred (fst e), snd e)) (event_list (pre r))
            = [(1%Q, Departure); (1%Q, Arrival)]
         /\ snd (ev r) = Arrival).
Proof.
  split; [reflexivity |]. split; [reflexivity |]. split.
  - intros H. specialize (H [(5%Q, Departure); (5%Q, Arrival)]). discriminate H.
  - eexists. split; [vm_compute; reflexivity |]. split; reflexivity.
Qed.

(** * Further properties of the simulation *)

(** ** Shape of the result *)

Lemma simulate_queue_result (p : params) (g0 : generator) (r : sim_result) :
  simulate_queue p g0 = Some (Ok r) ->
  exists s,
    snd (run_loop (loop_bound p) p (initial_state p g0)) = Halted s
    /\ r = aggregate p s.
Proof.
  unfold simulate_queue, simulate_queue_fuel. intros Hrun.
  destruct (snd (run_loop (loop_bound p) p (initial_state p g0))) as [s | x | s];
    try discriminate.
  injection Hrun as <-. exists s. split; reflexivity.
Qed.

(** An invariant of the loop holds in the state a result is built from. *)
Lemma result_state_invariant (p : params) (g0 : generator) (I : sim_state -> Prop) :
  (forall s e rest s',
      I s -> loop_guard s = true -> heappop (event_list s) = Some (e, rest) ->
      handle_event p s e rest = Continue s' \/ handle_event p s e rest = Break s' ->
      I s') ->
  I (initial_state p g0) ->
  forall s, snd (run_loop (loop_bound p) p (initial_state p g0)) = Halted s -> I s.
Proof.
  intros Hstep Hinit s Hs.
  pose proof (proj2 (run_loop_invariant p I Hstep (loop_bound p) _ Hinit)) as Hend.
  rewrite Hs in Hend. exact Hend.
Qed.

Lemma result_state_length (p : params) (g0 : generator) (s : sim_state) :
  snd (run_loop (loop_bound p) p (initial_state p g0)) = Halted s ->
  length (time_in_state s) = Z.to_nat (capacity p + 1).
Proof.
  apply (result_state_invariant p g0
           (fun s => length (time_in_state s) = Z.to_nat (capacity p + 1))).
  - intros s1 [t k] rest s2 Hlen _ _ H.
    apply handle_event_fields in H. destruct H as (Htis & _).
    rewrite (iadd_item_length _ _ _ _ Htis). assumption.
  - apply repeat_length.
Qed.

Lemma result_lengths (p : params) (g0 : generator) (r : sim_result) :
  simulate_queue p g0 = Some (Ok r) ->
  length (res_time_in_state r) = Z.to_nat (capacity p + 1)
  /\ length (probabilities r) = Z.to_nat (capacity p + 1).
Proof.
  intros Hrun. destruct (simulate_queue_result p g0 r Hrun) as (s & Hs & ->).
  cbn [aggregate res_time_in_state probabilities]. unfold compute_probabilities.
  rewrite length_map, (result_state_length p g0 s Hs). split; reflexivity.
Qed.

(** X1. Every result [simulate_queue] returns has exactly [capacity + 1]
    dwell times and [capacity + 1] probabilities, one per state 0..capacity
    (none when [capacity < 0]). *)
Theorem result_one_entry_per_state (p : params) (g0 : generator) (r : sim_result) :
  simulate_queue p g0 = Some (Ok r) ->
  length (res_time_in_state r) = Z.to_nat (capacity p + 1)
  /\ length (probabilities r) = Z.to_nat (capacity p + 1).
Proof.
  apply result_lengths.
Qed.

Lemma result_one_entry_per_state_witness :
  exists r,
    simulate_queue (mkParams 1 5 2 2 5 3 5 6 12345) (mkGen 0 0) = Some (Ok r)
    /\ length (res_time_in_state r) = 6%nat
    /\ length (probabilities r) = 6%nat.
Proof.
  eexists. split; [vm_compute; reflexivity |].
  apply (result_one_entry_per_state (mkParams 1 5 2 2 5 3 5 6 12345) (mkGen 0 0)).
  vm_compute. reflexivity.
Defined.

(** ** The stopping rule *)

Lemma pending_arrivals_app (h1 h2 : list event) :
  pending_arrivals (h1 ++ h2) = pending_arrivals h1 + pending_arrivals h2.
Proof.
  unfold pending_arrivals. rewrite filter_app, length_app. lia.
Qed.

Lemma pending_arrivals_push (h : list event) (e : event) :
  pending_arrivals (heappush h e)
  = pending_arrivals h + (if is_arrival e then 1 else 0).
Proof.
  unfold heappush. rewrite pending_arrivals_app. f_equal.
  unfold pending_arrivals. simpl. destruct (is_arrival e); reflexivity.
Qed.

Lemma pending_arrivals_pop (h : list event) (m : event) (rest : list event) :
  heappop h = Some (m, rest) ->
  pending_arrivals h = pending_arrivals rest + (if is_arrival m then 1 else 0).
Proof.
  intros H. destruct (heappop_split _ _ _ H) as (l1 & l2 & -> & ->).
  rewrite !pending_arrivals_app. unfold pending_arrivals at 2. simpl.
  destruct (is_arrival m); simpl length; unfold pending_arrivals; lia.
Qed.

Lemma pending_arrivals_nonneg (h : list event) : 0 <= pending_arrivals h.
Proof. unfold pending_arrivals. lia. Qed.

(** Every pending event is an arrival or a departure. *)
Lemma pending_total (h : list event) :
  Z.of_nat (length h) = pending_arrivals h + pending_departures h.
Proof.
  unfold pending_arrivals, pending_departures.
  induction h as [| [t k] h IH]; [reflexivity |].
  destruct k; cbn [filter is_arrival is_departure snd length]; lia.
Qed.

Lemma handle_event_arrival (p : params) (s : sim_state) (e : event)
      (rest : list event) (s' : sim_state) :
  arrival_inv s ->
  loop_guard s = true ->
  heappop (event_list s) = Some (e, rest) ->
  handle_event p s e rest = Continue s' \/ handle_event p s e rest = Break s' ->
  arrival_inv s'.
Proof.
  intros Hinv G Hpop H. apply loop_guard_true in G. destruct G as [_ G].
  destruct Hinv as [Hinv | Hinv]; [| lia].
  apply pending_arrivals_pop in Hpop. destruct e as [t k].
  rewrite Hpop in Hinv. clear Hpop.
  pose proof (pending_arrivals_nonneg rest) as Hnn.
  unfold arrival_inv.
  destruct H as [H | H]; step_cases H; step_done H;
    rewrite ?pending_arrivals_push; cbn [is_arrival snd] in *; lia.
Qed.

Lemma initial_arrival (p : params) (g0 : generator) : arrival_inv (initial_state p g0).
Proof. left. reflexivity. Qed.

(** The loop goes on until the generator is exhausted. *)
Lemma run_ends_exhausted (p : params) (g0 : generator) :
  0 <= capacity p ->
  0 <= num_randoms p ->
  exists s,
    snd (run_loop (loop_bound p) p (initial_state p g0)) = Halted s
    /\ random_count (gen s) = 0
    /\ gen s = mkGen (Nat.iter (Z.to_nat (num_randoms p)) lcg_next (seed p)) 0.
Proof.
  intros Hcap Hn. destruct (run_halts p g0 Hcap) as [s Hs]. exists s.
  split; [assumption |].
  assert (Hstream : stream_inv p s).
  { apply (result_state_invariant p g0 (stream_inv p)); [| apply initial_stream | ];
      try assumption.
    intros s1 e rest s2 Hs1 _ _ H. eapply handle_event_stream; eassumption. }
  assert (Harrival : arrival_inv s).
  { apply (result_state_invariant p g0 arrival_inv); [| apply initial_arrival | ];
      try assumption.
    intros s1 e rest s2 Hs1 G Hpop H. eapply handle_event_arrival; eassumption. }
  destruct Hstream as (k & Hk & Hgen).
  assert (Hle : random_count (gen s) <= 0).
  { destruct (run_loop_halt_reason p _ _ _ Hs) as [Hempty | Hle]; [| assumption].
    destruct Harrival as [Hone | Hle]; [| assumption].
    rewrite Hempty in Hone. discriminate Hone. }
  rewrite Hgen in *. cbn [random_count] in *.
  replace (Z.to_nat (num_randoms p)) with k by lia.
  split; [lia | f_equal; lia].
Qed.

(** X5. With [capacity >= 0] and [num_randoms >= 0] the loop stops exactly
    when the budget is used up: it ends with [random_count = 0], the
    generator being where [num_randoms] successful calls of [next_random]
    after the reset leave it. *)
Theorem budget_fully_consumed (p : params) (g0 : generator) :
  0 <= capacity p ->
  0 <= num_randoms p ->
  exists s,
    snd (run_loop (loop_bound p) p (initial_state p g0)) = Halted s
    /\ random_count (gen s) = 0
    /\ draws (Z.to_nat (num_randoms p)) (reset_random (seed p) (num_randoms p) g0)
       = (map Ok (lcg_variates (Z.to_nat (num_randoms p)) (seed p)), gen s).
Proof.
  intros Hcap Hn. destruct (run_ends_exhausted p g0 Hcap Hn) as (s & Hs & Hz & Hgen).
  exists s. split; [assumption |]. split; [assumption |].
  rewrite draws_within_budget by (simpl; lia). cbn [reset_random previous random_count].
  rewrite Hgen. f_equal. f_equal. lia.
Qed.

Lemma budget_fully_consumed_witness :
  exists s,
    snd (run_loop 12 (mkParams 0 1 2 2 2 3 3 6 1)
                  (initial_state (mkParams 0 1 2 2 2 3 3 6 1) (mkGen 0 0)))
    = Halted s
    /\ random_count (gen s) = 0.
Proof.
  destruct (budget_fully_consumed (mkParams 0 1 2 2 2 3 3 6 1) (mkGen 0 0)
              ltac:(simpl; lia) ltac:(simpl; lia)) as (s & Hs & Hz & _).
  exists s. split; assumption.
Defined.

Lemma run_loop_draws_bound (p : params) : forall (fuel : nat) (s s' : sim_state),
  snd (run_loop fuel p s) = Halted s' ->
  random_count (gen s) - random_count (gen s')
  <= 2 * Z.of_nat (length (fst (run_loop fuel p s))).
Proof.
  induction fuel as [| fuel IH]; intros s s' Hfin; cbn [run_loop] in *.
  - destruct (loop_guard s); cbn [fst snd length] in *; [discriminate |].
    injection Hfin as <-. lia.
  - destruct (loop_guard s); [| cbn [fst snd length] in *; injection Hfin as <-; lia].
    destruct (heappop (event_list s)) as [[e rest] |]; [| discriminate].
    destruct (handle_event p s e rest) as [s1 | s1 | x] eqn:H; [| | discriminate].
    + destruct (handle_event_draws p s e rest s1 (or_introl H)) as (k & Hk & _ & Hgen).
      specialize (IH s1 s'). destruct (run_loop fuel p s1) as [log fin].
      cbn [fst snd length] in *. specialize (IH Hfin).
      rewrite Hgen in IH. cbn [random_count] in IH. lia.
    + destruct (handle_event_draws p s e rest s1 (or_intror H)) as (k & Hk & _ & Hgen).
      cbn [fst snd length] in *. injection Hfin as <-.
      rewrite Hgen. cbn [random_count]. lia.
Qed.

(** X6. With [capacity >= 0] a run processes at least [num_randoms / 2]
    events: an iteration makes at most two draws and the loop goes on until
    the budget is used up. *)
Theorem processed_at_least_half_budget (p : params) (g0 : generator) :
  0 <= capacity p ->
  num_randoms p <= 2 * Z.of_nat (length (processed p g0)).
Proof.
  intros Hcap. destruct (Z_lt_le_dec (num_randoms p) 0) as [Hneg | Hn]; [lia |].
  destruct (run_ends_exhausted p g0 Hcap Hn) as (s & Hs & Hz & _).
  pose proof (run_loop_draws_bound p _ _ _ Hs) as Hb.
  rewrite Hz in Hb. cbn [initial_state gen reset_random random_count] in Hb.
  unfold processed. lia.
Qed.

Lemma processed_at_least_half_budget_witness :
  6 <= 2 * Z.of_nat (length (processed (mkParams 1 5 2 2 5 3 5 6 12345) (mkGen 0 0))).
Proof.
  apply (processed_at_least_half_budget (mkParams 1 5 2 2 5 3 5 6 12345) (mkGen 0 0)).
  simpl. lia.
Defined.

(** ** What the scheduler holds *)

Lemma run_log_arrival (p : params) (g0 : generator) (fuel : nat) :
  Forall (fun r => arrival_inv (pre r) /\ arrival_inv (post r))
         (fst (run_loop fuel p (initial_state p g0))).
Proof.
  apply run_loop_invariant.
  - intros s e rest s' Hs G Hpop H. eapply handle_event_arrival; eassumption.
  - apply initial_arrival.
Qed.

(** X7. Whenever an event is popped, the scheduler holds exactly one
    arrival and one departure per customer in service (the smaller of
    occupancy and servers), so never more than
    [1 + max 0 (min capacity servers)] events. *)
Theorem scheduler_holds_next_arrival_and_services (p : params) (g0 : generator) :
  Forall (fun r =>
            pending_arrivals (event_list (pre r)) = 1
            /\ pending_departures (event_list (pre r))
               = Z.max 0 (Z.min (state (pre r)) (servers p))
            /\ Z.of_nat (length (event_list (pre r)))
               <= 1 + Z.max 0 (Z.min (capacity p) (servers p)))
         (processed p g0).
Proof.
  pose proof (Forall_and (run_loop_log p (loop_bound p) (initial_state p g0))
                (Forall_and (run_log_occupancy p g0 (loop_bound p))
                            (run_log_arrival p g0 (loop_bound p)))) as Hall.
  eapply Forall_impl; [| exact Hall].
  intros r [(G & _) [[(Hst & _ & Hdep) _] [Harr _]]].
  apply loop_guard_true in G. destruct G as [_ G].
  destruct Harr as [Harr | Harr]; [| lia].
  rewrite pending_total, Harr, Hdep. repeat split; lia.
Qed.

(** X8. With [servers <= 0] nobody is ever served: every processed event
    is an arrival and the occupancy never goes down. *)
Theorem no_servers_no_departures (p : params) (g0 : generator) :
  servers p <= 0 ->
  Forall (fun r => snd (ev r) = Arrival /\ state (pre r) <= state (post r))
         (processed p g0).
Proof.
  intros Hsrv.
  pose proof (Forall_and (run_loop_log p (loop_bound p) (initial_state p g0))
                         (run_log_occupancy p g0 (loop_bound p))) as Hall.
  eapply Forall_impl; [| exact Hall].
  intros [s [t k] s'] [(_ & rest & Hpop & H) [(Hst & _ & Hdep) _]].
  cbn [pre post ev snd] in *.
  apply pending_departures_pop in Hpop.
  pose proof (pending_departures_nonneg rest) as Hnn.
  apply handle_event_fields in H. destruct H as (_ & _ & Hstate & _).
  destruct k; cbn [is_departure snd] in Hpop; [| exfalso; lia].
  split; [reflexivity |].
  rewrite Hstate. destruct (state s <? capacity p); lia.
Qed.

Lemma no_servers_no_departures_witness :
  Forall (fun r => snd (ev r) = Arrival /\ state (pre r) <= state (post r))
         (processed (mkParams 0 1 2 2 2 3 3 3 1) (mkGen 0 0)).
Proof.
  apply (no_servers_no_departures (mkParams 0 1 2 2 2 3 3 3 1) (mkGen 0 0)).
  simpl. lia.
Defined.

(** ** Counting customers *)

Lemma count_steps_cons (f : step_record -> bool) (r : step_record)
      (log : list step_record) :
  count_steps f (r :: log) = (if f r then 1 else 0) + count_steps f log.
Proof.
  unfold count_steps. cbn [filter]. destruct (f r); cbn [length]; lia.
Qed.

(** A quantity that each iteration changes by the weight of its log entry
    ends up changed by the sum of the weights. *)
Lemma run_loop_telescope (p : params) (I : sim_state -> Prop)
      (f : sim_state -> Z) (w : step_record -> Z) :
  (forall s e rest s',
      I s -> loop_guard s = true -> heappop (event_list s) = Some (e, rest) ->
      handle_event p s e rest = Continue s' \/ handle_event p s e rest = Break s' ->
      I s' /\ f s' = f s + w (mkStep s e s')) ->
  forall (fuel : nat) (s s' : sim_state),
    I s ->
    snd (run_loop fuel p s) = Halted s' ->
    f s' = f s + fold_right Z.add 0 (map w (fst (run_loop fuel p s))).
Proof.
  intros Hstep. induction fuel as [| fuel IH]; intros s s' Hs Hfin; cbn [run_loop] in *.
  - destruct (loop_guard s); cbn [fst snd map fold_right] in *; [discriminate |].
    injection Hfin as <-. lia.
  - destruct (loop_guard s) eqn:G;
      [| cbn [fst snd map fold_right] in *; injection Hfin as <-; lia].
    destruct (heappop (event_list s)) as [[e rest] |] eqn:Hpop; [| discriminate].
    destruct (handle_event p s e rest) as [s1 | s1 | x] eqn:H; [| | discriminate].
    + destruct (Hstep s e rest s1 Hs G Hpop (or_introl H)) as [Hs1 Hf].
      specialize (IH s1 s' Hs1). destruct (run_loop fuel p s1) as [log fin].
      cbn [fst snd map fold_right] in *. specialize (IH Hfin). lia.
    + destruct (Hstep s e rest s1 Hs G Hpop (or_intror H)) as [Hs1 Hf].
      cbn [fst snd map fold_right] in *. injection Hfin as <-. lia.
Qed.

Lemma count_steps_weights (f : step_record -> bool) (log : list step_record) :
  fold_right Z.add 0 (map (fun r => if f r then 1 else 0) log) = count_steps f log.
Proof.
  induction log as [| r log IH]; [reflexivity |].
  cbn [map fold_right]. rewrite count_steps_cons, IH. reflexivity.
Qed.

Lemma run_without_capacity (p : params) (g0 : generator) (s : sim_state) :
  capacity p < 0 ->
  snd (run_loop (loop_bound p) p (initial_state p g0)) = Halted s ->
  processed p g0 = [] /\ s = initial_state p g0.
Proof.
  intros Hcap Hs. unfold processed.
  pose proof (run_loop_final p _ _ _ Hs) as Hlast.
  rewrite (proj1 (negative_capacity_aborts p g0 (loop_bound p) Hcap)) in *.
  split; [reflexivity | exact Hlast].
Qed.

(** X9. The [losses] of a returned result is the number of processed
    arrivals that were popped while the occupancy equalled the capacity. *)
Theorem losses_are_rejected_arrivals (p : params) (g0 : generator) (r : sim_result) :
  simulate_queue p g0 = Some (Ok r) ->
  res_losses r = count_steps (rejected p) (processed p g0).
Proof.
  intros Hrun. destruct (simulate_queue_result p g0 r Hrun) as (s & Hs & ->).
  cbn [aggregate res_losses].
  destruct (Z_lt_le_dec (capacity p) 0) as [Hneg | Hcap].
  - destruct (run_without_capacity p g0 s Hneg Hs) as [-> ->]. reflexivity.
  - unfold processed. rewrite <- count_steps_weights.
    change (losses s = losses (initial_state p g0)
                       + fold_right Z.add 0
                           (map (fun r => if rejected p r then 1 else 0)
                                (fst (run_loop (loop_bound p) p (initial_state p g0))))).
    apply (run_loop_telescope p (occupancy_inv p)); try assumption;
      [| apply initial_occupancy; assumption].
    intros s1 [t k] rest s2 Hs1 G Hpop H.
    split; [eapply handle_event_occupancy; eassumption |].
    destruct Hs1 as (Hst & _). apply handle_event_fields in H.
    destruct H as (_ & _ & _ & Hlo). rewrite Hlo.
    unfold rejected. destruct k; cbn [ev pre is_arrival snd andb]; [| lia].
    destruct (Z.ltb_spec (state s1) (capacity p)), (Z.eqb_spec (state s1) (capacity p));
      lia.
Qed.

Lemma losses_are_rejected_arrivals_witness :
  exists r,
    simulate_queue (mkParams 0 1 2 2 2 3 3 3 1) (mkGen 0 0) = Some (Ok r)
    /\ res_losses r = 2.
Proof.
  eexists. split; [vm_compute; reflexivity |].
  rewrite (losses_are_rejected_arrivals (mkParams 0 1 2 2 2 3 3 3 1) (mkGen 0 0));
    vm_compute; reflexivity.
Defined.

Lemma count_steps_partition (p : params) (log : list step_record) :
  Forall (fun r => state (pre r) <= capacity p) log ->
  count_steps (admitted p) log + count_steps (rejected p) log + count_steps departed log
  = Z.of_nat (length log).
Proof.
  induction 1 as [| r log Hr Hlog IH]; [reflexivity |].
  rewrite !count_steps_cons. cbn [length].
  unfold admitted, rejected, departed, is_arrival, is_departure in *.
  destruct (snd (ev r)); cbn [andb];
    destruct (Z.ltb_spec (state (pre r)) (capacity p)),
             (Z.eqb_spec (state (pre r)) (capacity p)); lia.
Qed.

(** X10. Customers are conserved. When the loop halts, the occupancy is
    the number of admitted arrivals minus the number of processed
    departures, so no more customers leave than were let in; and every
    processed event is an admitted arrival, a rejected arrival or a
    departure. *)
Theorem customers_are_conserved (p : params) (g0 : generator) (s : sim_state) :
  snd (run_loop (loop_bound p) p (initial_state p g0)) = Halted s ->
  state s = count_steps (admitted p) (processed p g0)
            - count_steps departed (processed p g0)
  /\ count_steps departed (processed p g0) <= count_steps (admitted p) (processed p g0)
  /\ count_steps (admitted p) (processed p g0)
     + count_steps (rejected p) (processed p g0)
     + count_steps departed (processed p g0)
     = Z.of_nat (length (processed p g0)).
Proof.
  intros Hs.
  destruct (Z_lt_le_dec (capacity p) 0) as [Hneg | Hcap].
  - destruct (run_without_capacity p g0 s Hneg Hs) as [-> ->].
    repeat split; reflexivity.
  - assert (Hpart : count_steps (admitted p) (processed p g0)
                    + count_steps (rejected p) (processed p g0)
                    + count_steps departed (processed p g0)
                    = Z.of_nat (length (processed p g0))).
    { apply count_steps_partition.
      eapply Forall_impl; [| apply (run_log_occupancy p g0 (loop_bound p))].
      intros r [(Hst & _) _]. lia. }
    assert (Hocc : occupancy_inv p s).
    { apply (result_state_invariant p g0 (occupancy_inv p)); try assumption;
        [| apply initial_occupancy; assumption].
      intros s1 e rest s2 Hs1 G Hpop H. eapply handle_event_occupancy; eassumption. }
    assert (Hbal : state s = state (initial_state p g0)
                   + fold_right Z.add 0
                       (map (fun r => (if admitted p r then 1 else 0)
                                      - (if departed r then 1 else 0))
                            (fst (run_loop (loop_bound p) p (initial_state p g0))))).
    { apply (run_loop_telescope p (fun _ => True)); try assumption; [| exact I].
      intros s1 [t k] rest s2 _ G Hpop H. split; [exact I |].
      apply handle_event_fields in H. destruct H as (_ & _ & Hstate & _).
      rewrite Hstate. unfold admitted, departed.
      destruct k; cbn [ev pre is_arrival is_departure snd andb];
        [destruct (state s1 <? capacity p) |]; lia. }
    assert (Hsum : forall log,
               fold_right Z.add 0
                 (map (fun r => (if admitted p r then 1 else 0)
                                - (if departed r then 1 else 0)) log)
               = count_steps (admitted p) log - count_steps departed log).
    { induction log as [| r log IH]; [reflexivity |].
      cbn [map fold_right]. rewrite !count_steps_cons, IH. lia. }
    rewrite Hsum in Hbal. cbn [initial_state state] in Hbal.
    fold (processed p g0) in Hbal. destruct Hocc as (Hst & _).
    repeat split; [lia | lia | exact Hpart].
Qed.

Lemma customers_are_conserved_witness :
  exists s,
    snd (run_loop 12 (mkParams 1 5 2 2 5 3 5 6 12345)
                  (initial_state (mkParams 1 5 2 2 5 3 5 6 12345) (mkGen 0 0)))
    = Halted s
    /\ state s = count_steps (admitted (mkParams 1 5 2 2 5 3 5 6 12345))
                             (processed (mkParams 1 5 2 2 5 3 5 6 12345) (mkGen 0 0))
                 - count_steps departed
                               (processed (mkParams 1 5 2 2 5 3 5 6 12345) (mkGen 0 0)).
Proof.
  eexists. split; [vm_compute; reflexivity |].
  apply (customers_are_conserved (mkParams 1 5 2 2 5 3 5 6 12345) (mkGen 0 0)).
  vm_compute. reflexivity.
Defined.

(** ** Seeds *)

Lemma lcg_next_congruent (s s' : Z) :
  s mod 2 ^ 32 = s' mod 2 ^ 32 -> lcg_next s = lcg_next s'.
Proof.
  intros H. unfold lcg_next.
  rewrite (Z.add_mod (1664525 * s)), (Z.add_mod (1664525 * s'))
    by (vm_compute; discriminate).
  rewrite (Z.mul_mod 1664525 s), (Z.mul_mod 1664525 s') by (vm_compute; discriminate).
  rewrite H. reflexivity.
Qed.

Lemma draws_congruent (n : nat) : forall g1 g2 : generator,
  random_count g1 = random_count g2 ->
  previous g1 mod 2 ^ 32 = previous g2 mod 2 ^ 32 ->
  fst (draws n g1) = fst (draws n g2).
Proof.
  induction n as [| n IH]; intros g1 g2 Hrc Hprev; [reflexivity |].
  cbn [draws].
  destruct (Z_lt_le_dec 0 (random_count g1)) as [Hpos | Hle].
  - rewrite (next_random_success g1), (next_random_success g2) by lia.
    rewrite (lcg_next_congruent _ _ Hprev), Hrc.
    destruct (draws n {| previous := lcg_next (previous g2);
                         random_count := random_count g2 - 1 |}) as [rs g].
    reflexivity.
  - rewrite (next_random_failure g1), (next_random_failure g2) by lia.
    specialize (IH g1 g2 Hrc Hprev).
    destruct (draws n g1) as [rs1 g1'], (draws n g2) as [rs2 g2'].
    cbn [fst] in *. rewrite IH. reflexivity.
Qed.

(** X11. Only the seed modulo 2^32 matters: after resets with the same
    budget and seeds congruent modulo 2^32, any number of calls of
    [next_random] have the same outcomes. *)
Theorem congruent_seeds_same_stream (seed seed' budget : Z) (g g' : generator) (n : nat) :
  seed mod 2 ^ 32 = seed' mod 2 ^ 32 ->
  fst (draws n (reset_random seed budget g)) = fst (draws n (reset_random seed' budget g')).
Proof.
  intros H. apply draws_congruent; [reflexivity | exact H].
Qed.

Lemma congruent_seeds_same_stream_witness :
  fst (draws 4 (reset_random 1 3 (mkGen 0 0)))
  = fst (draws 4 (reset_random (1 + 2 ^ 32) 3 (mkGen 5 5))).
Proof.
  apply (congruent_seeds_same_stream 1 (1 + 2 ^ 32) 3 (mkGen 0 0) (mkGen 5 5) 4).
  vm_compute. reflexivity.
Defined.

(** ** The report *)

Lemma enumerate_length {A : Type} (l : list A) : length (enumerate l) = length l.
Proof. unfold enumerate. rewrite length_combine, length_seq. apply Nat.min_id. Qed.



Lemma print_report_length (fmt : float_format) (r : sim_result) (label : string) :
  length (print_report fmt r label)
  = (13 + Nat.min (length (res_time_in_state r)) (length (probabilities r)))%nat.
Proof.
  unfold print_report.
  rewrite !length_app, length_map, enumerate_length, length_combine.
  cbn [length]. lia.
Qed.

(** X12. [print_report] makes 13 [print] calls besides one per state, and
    it prints a state line for as many states as both [time_in_state] and
    [probabilities] have entries. *)
Theorem report_line_count (fmt : float_format) (r : sim_result) (label : string) :
  length (print_report fmt r label)
  = (13 + Nat.min (length (res_time_in_state r)) (length (probabilities r)))%nat.
Proof.
  apply print_report_length.
Qed.



(** ** The script *)






(** ** Boundary cases of a run *)

Lemma fold_right_zero_weights (log : list step_record) :
  fold_right Z.add 0 (map (fun _ : step_record => 0) log) = 0.
Proof. induction log as [| r log IH]; [reflexivity | cbn [map fold_right]; lia]. Qed.

(** X15. With [capacity = 0] and [num_randoms >= 0] every arrival is lost
    and costs exactly one draw: the returned [losses] equals
    [num_randoms]. *)
Theorem zero_capacity_loses_every_arrival (p : params) (g0 : generator) (r : sim_result) :
  capacity p = 0 ->
  0 <= num_randoms p ->
  simulate_queue p g0 = Some (Ok r) ->
  res_losses r = num_randoms p.
Proof.
  intros Hcap Hn Hrun. destruct (simulate_queue_result p g0 r Hrun) as (s & Hs & ->).
  cbn [aggregate res_losses].
  destruct (run_ends_exhausted p g0 ltac:(lia) Hn) as (s' & Hs' & Hz & _).
  rewrite Hs in Hs'. injection Hs' as <-.
  assert (Hbal : losses s + random_count (gen s)
                 = losses (initial_state p g0) + random_count (gen (initial_state p g0))
                   + fold_right Z.add 0
                       (map (fun _ : step_record => 0)
                            (fst (run_loop (loop_bound p) p (initial_state p g0))))).
  { apply (run_loop_telescope p (occupancy_inv p)
             (fun s => losses s + random_count (gen s)) (fun _ => 0));
      [| apply initial_occupancy; lia | exact Hs].
    intros s1 [t k] rest s2 Hs1 G Hpop H.
    split; [eapply handle_event_occupancy; eassumption |].
    destruct Hs1 as (Hst & _ & Hdep).
    apply loop_guard_true in G. destruct G as [_ G].
    apply pending_departures_pop in Hpop.
    pose proof (pending_departures_nonneg rest) as Hnn.
    destruct k; cbn [is_departure snd] in Hpop; [| exfalso; lia].
    destruct H as [H | H]; step_cases H; step_done H; lia. }
  rewrite fold_right_zero_weights, Hz in Hbal.
  cbn [initial_state losses gen reset_random random_count] in Hbal. lia.
Qed.

Lemma zero_capacity_loses_every_arrival_witness :
  exists r,
    simulate_queue (mkParams 1 0 2 2 2 3 3 4 1) (mkGen 0 0) = Some (Ok r)
    /\ res_losses r = 4.
Proof.
  eexists. split; [vm_compute; reflexivity |].
  apply (zero_capacity_loses_every_arrival (mkParams 1 0 2 2 2 3 3 4 1) (mkGen 0 0));
    [reflexivity | simpl; lia | vm_compute; reflexivity].
Defined.

(** * The engine on doubles *)

(** ** The loop on doubles halts within its bound *)

Lemma doubles_heappop_none (h : list Doubles.event) : Doubles.heappop h = None <-> h = [].
Proof.
  destruct h as [| e h']; simpl; [tauto |].
  destruct (Doubles.heappop h') as [[m rest] |]; [destruct (Doubles.tuple_ltb m e) |];
    split; discriminate.
Qed.

Lemma doubles_heappop_split (h : list Doubles.event) : forall m rest,
  Doubles.heappop h = Some (m, rest) ->
  exists l1 l2, h = l1 ++ m :: l2 /\ rest = l1 ++ l2.
Proof.
  induction h as [| e h' IH]; intros m rest H; simpl in H; [discriminate |].
  destruct (Doubles.heappop h') as [[m' rest'] |] eqn:E.
  - destruct (Doubles.tuple_ltb m' e).
    + injection H as <- <-. destruct (IH _ _ eq_refl) as (l1 & l2 & -> & ->).
      exists (e :: l1), l2. split; reflexivity.
    + injection H as <- <-. exists [], h'. split; reflexivity.
  - injection H as <- <-. apply doubles_heappop_none in E. subst h'.
    exists [], []. split; reflexivity.
Qed.

Lemma doubles_pending_app (h1 h2 : list Doubles.event) :
  Doubles.pending_departures (h1 ++ h2)
  = Doubles.pending_departures h1 + Doubles.pending_departures h2.
Proof.
  unfold Doubles.pending_departures. rewrite filter_app, length_app. lia.
Qed.

Lemma doubles_pending_push (h : list Doubles.event) (e : Doubles.event) :
  Doubles.pending_departures (Doubles.heappush h e)
  = Doubles.pending_departures h + (if Doubles.is_departure e then 1 else 0).
Proof.
  unfold Doubles.heappush. rewrite doubles_pending_app. f_equal.
  unfold Doubles.pending_departures. simpl. destruct (Doubles.is_departure e); reflexivity.
Qed.

Lemma doubles_pending_pop (h : list Doubles.event) (m : Doubles.event)
      (rest : list Doubles.event) :
  Doubles.heappop h = Some (m, rest) ->
  Doubles.pending_departures h
  = Doubles.pending_departures rest + (if Doubles.is_departure m then 1 else 0).
Proof.
  intros H. destruct (doubles_heappop_split _ _ _ H) as (l1 & l2 & -> & ->).
  rewrite !doubles_pending_app. unfold Doubles.pending_departures at 2. simpl.
  destruct (Doubles.is_departure m); simpl length; unfold Doubles.pending_departures; lia.
Qed.

Lemma doubles_pending_nonneg (h : list Doubles.event) : 0 <= Doubles.pending_departures h.
Proof. unfold Doubles.pending_departures. lia. Qed.

Lemma doubles_next_random_cases (g : generator) :
  (0 < random_count g /\ exists x,
      Doubles.next_random g = (Ok x, mkGen (lcg_next (previous g)) (random_count g - 1)))
  \/ (random_count g <= 0 /\ Doubles.next_random g = (Raise Exhaustion, g)).
Proof.
  unfold Doubles.next_random.
  destruct (Z.leb_spec (random_count g) 0) as [Hle | Hpos].
  - right. split; [assumption | reflexivity].
  - left. split; [assumption |]. eexists. reflexivity.
Qed.

Ltac doubles_draw_cases H :=
  match type of H with
  | context [Doubles.next_random ?g] =>
      let Hrc := fresh "Hrc" in
      let x := fresh "x" in
      let Hnr := fresh "Hnr" in
      destruct (doubles_next_random_cases g) as [(Hrc & x & Hnr) | (Hrc & Hnr)];
      rewrite Hnr in H; clear Hnr;
      cbn [Doubles.gen Doubles.set_gen Doubles.set_state Doubles.set_losses
           Doubles.set_event_list Doubles.schedule_departure Doubles.schedule_arrival
           Doubles.state Doubles.losses Doubles.current_time Doubles.time_in_state
           Doubles.event_list previous random_count] in H, Hrc
  end.

Ltac doubles_step_cases H :=
  unfold Doubles.handle_event, Doubles.next_arrival, Doubles.try_draw in H;
  cbn [Doubles.gen Doubles.set_gen Doubles.set_state Doubles.set_losses
       Doubles.set_event_list Doubles.state Doubles.losses Doubles.current_time
       Doubles.time_in_state Doubles.event_list] in H;
  repeat match type of H with
    | context [Doubles.iadd_item ?l ?i ?d] =>
        let tis := fresh "tis" in
        let Htis := fresh "Htis" in
        destruct (Doubles.iadd_item l i d) as [tis | ?] eqn:Htis
    | context [match ?k with Arrival => _ | Departure => _ end] => destruct k
    | context [?x <? ?y] =>
        let Hlt := fresh "Hlt" in destruct (Z.ltb_spec x y) as [Hlt | Hlt]
    | context [?x <=? ?y] =>
        let Hle := fresh "Hle" in destruct (Z.leb_spec x y) as [Hle | Hle]
    | context [?x >=? ?y] => rewrite (Z.geb_leb x y) in H
    | _ => doubles_draw_cases H
    end;
  try discriminate H.

Ltac doubles_step_done H :=
  first [ injection H as <- | discriminate H ];
  cbn [Doubles.gen Doubles.set_gen Doubles.set_state Doubles.set_losses
       Doubles.set_event_list Doubles.schedule_departure Doubles.schedule_arrival
       Doubles.state Doubles.losses Doubles.current_time Doubles.time_in_state
       Doubles.event_list previous random_count].

Lemma doubles_loop_guard_true (s : Doubles.sim_state) :
  Doubles.loop_guard s = true ->
  Doubles.event_list s <> [] /\ 0 < random_count (Doubles.gen s).
Proof.
  unfold Doubles.loop_guard. destruct (Doubles.event_list s); [discriminate |].
  intros H. apply Z.ltb_lt in H. split; [discriminate | assumption].
Qed.


Lemma doubles_handle_event_potential (p : Doubles.params) (s : Doubles.sim_state)
      (e : Doubles.event) (rest : list Doubles.event) (s' : Doubles.sim_state) :
  Doubles.loop_guard s = true ->
  Doubles.heappop (Doubles.event_list s) = Some (e, rest) ->
  Doubles.handle_event p s e rest = Doubles.Continue s'
  \/ Doubles.handle_event p s e rest = Doubles.Break s' ->
  0 <= Doubles.potential s' <= Doubles.potential s - 1.
Proof.
  intros G Hpop H. apply doubles_loop_guard_true in G. destruct G as [_ G].
  apply doubles_pending_pop in Hpop. destruct e as [t k].
  unfold Doubles.potential. rewrite Hpop. clear Hpop.
  pose proof (doubles_pending_nonneg rest) as Hnn.
  destruct H as [H | H]; doubles_step_cases H; doubles_step_done H;
    rewrite ?doubles_pending_push; cbn [Doubles.is_departure snd]; lia.
Qed.

Lemma doubles_run_loop_terminates (p : Doubles.params) :
  forall (fuel : nat) (s : Doubles.sim_state),
    Doubles.potential s <= Z.of_nat fuel ->
    forall s', snd (Doubles.run_loop fuel p s) <> Doubles.OutOfFuel s'.
Proof.
  induction fuel as [| fuel IH]; intros s Hpot s'; cbn [Doubles.run_loop].
  - destruct (Doubles.loop_guard s) eqn:G; [| discriminate].
    exfalso. apply doubles_loop_guard_true in G. unfold Doubles.potential in Hpot.
    pose proof (doubles_pending_nonneg (Doubles.event_list s)). lia.
  - destruct (Doubles.loop_guard s) eqn:G; [| discriminate].
    destruct (Doubles.heappop (Doubles.event_list s)) as [[e rest] |] eqn:Hpop;
      [| discriminate].
    destruct (Doubles.handle_event p s e rest) as [s1 | s1 | x] eqn:H;
      [| discriminate | discriminate].
    pose proof (doubles_handle_event_potential p s e rest s1 G Hpop (or_introl H)) as Hp.
    specialize (IH s1 ltac:(lia) s'). destruct (Doubles.run_loop fuel p s1). exact IH.
Qed.

(** [Doubles.simulate_queue] never runs out of fuel. *)
Lemma doubles_run_within_bound (p : Doubles.params) (g0 : generator) :
  Doubles.simulate_queue p g0 <> None.
Proof.
  unfold Doubles.simulate_queue, Doubles.simulate_queue_fuel.
  pose proof (doubles_run_loop_terminates p (Doubles.loop_bound p)
                (Doubles.initial_state p g0)) as Hfuel.
  destruct (snd (Doubles.run_loop (Doubles.loop_bound p) p (Doubles.initial_state p g0)))
    as [s | x | s]; try discriminate.
  exfalso. apply (Hfuel ltac:(unfold Doubles.potential, Doubles.pending_departures,
                                Doubles.loop_bound; simpl; lia) s).
  reflexivity.
Qed.




(** ** Runs that compute exactly *)












